(** * Jigsaw countdown timer

    A shallow embedding of [src/lib/jigsaw.ts] (class [JigsawPuzzle]) and of
    the query handling of [src/routes/timer/+page.svelte], with the
    properties of the engine proved over it.

    Numbers.  The engine computes with JavaScript numbers.  They are embedded
    as exact rationals ([Q]): every arithmetic operator of the source is the
    rational operator of the same name, [Math.floor] is [Qfloor], [Math.min]
    and [Math.max] are [Qmin] and [Qmax].  The rounding of binary64
    arithmetic is not part of this model.  What is proved over it of the
    engine is chosen not to turn on a rounding: which numbers the engine
    computes, operator by operator, and what follows from the order of
    numbers, which rounding keeps, rather than identities of exact
    arithmetic such as [n * (t / n) = t], which binary64 breaks.
    Equalities between numbers computed by different expressions are
    stated with [==].  Where a property rests on such an identity, the
    expression is embedded a second time with the binary64 numbers of Rocq
    ([PrimFloat]), in the module [Binary64], and evaluated there.

    Neither are [NaN] and the infinities part of [Q]: a quotient by zero,
    which is one of them in JavaScript, is 0 in [Q], so whatever is proved
    of the value of a quotient assumes its divisor is not zero (pieces
    exist, the image and the total duration are positive).  The page
    model, where [NaN] matters, uses a separate type [JsNumber].

    Canvas dimensions.  The [width] and [height] attributes of a canvas
    element are integers: the numbers assigned to them are stored without
    their fraction ([Js.canvasDimension]), and it is the stored integer
    that the engine reads back. *)

From Stdlib Require Import QArith Qround Qminmax Lqa Lia ZArith.
From Stdlib Require Import String Ascii DecimalString Decimal DecimalPos.
From Stdlib Require Import Floats.PrimFloat.
From stdpp Require Import list.

Open Scope Q_scope.

(* ===================================================================== *)
(** ** JavaScript numbers, as far as the engine uses them *)
(* ===================================================================== *)

Module Js.

(** [a < b] and [a >= b] as the conditions of [if] and [?:]. *)
Definition ltb (a b : Q) : bool := negb (Qle_bool b a).
Definition geb (a b : Q) : bool := Qle_bool b a.

(** A [length] or a loop counter used as a number. *)
Definition of_nat (n : nat) : Q := inject_Z (Z.of_nat n).

Definition Math_floor (x : Q) : Z := Qfloor x.
Definition Math_min (a b c : Q) : Q := Qmin (Qmin a b) c.
Definition Math_min2 (a b : Q) : Q := Qmin a b.
Definition Math_max (a b : Q) : Q := Qmax a b.

(** [Math.pow(x, 3)]. *)
Definition Math_pow3 (x : Q) : Q := x * x * x.

(** The integer part, rounding towards zero. *)
Definition trunc (x : Q) : Z := Z.quot (Qnum x) (Zpos (Qden x)).

(** [a % b]: the remainder has the sign of the dividend. *)
Definition rem (a b : Q) : Q := a - b * inject_Z (trunc (a / b)).

(** The number read from the [width] or the [height] attribute of a canvas
    element after [x] was assigned to it.  The attribute is an
    [unsigned long]: the assigned number loses its fraction and is taken
    modulo 2^32, and the element falls back on the default of the attribute
    (300 for [width], 150 for [height]) when the result is beyond
    2^31 - 1. *)
Definition canvasDimension (default : Z) (x : Q) : Q :=
  let n := (trunc x mod 2 ^ 32)%Z in
  inject_Z (if (n <=? 2147483647)%Z then n else default).

(** [n.toString()] for an integral [n]: decimal digits, a leading minus
    sign for negative values (JavaScript prints integers so below 10^21). *)
Definition toString (n : Z) : string := NilZero.string_of_int (Z.to_int n).

(** [s.padStart(targetLength, c)] for a one-character filler [c]. *)
Definition padStart (targetLength : nat) (c : ascii) (s : string) : string :=
  string_of_list_ascii (repeat c (targetLength - String.length s)) ++ s.

End Js.

(* ===================================================================== *)
(** ** Pure methods: easing, scale factor, countdown text *)
(* ===================================================================== *)

(** [easeInOutCubic(t)]:
    [t < 0.5 ? 4 * t * t * t : 1 - Math.pow(-2 * t + 2, 3) / 2]. *)
Definition easeInOutCubic (t : Q) : Q :=
  if Js.ltb t (1 # 2) then 4 * t * t * t
  else 1 - Js.Math_pow3 (-(2) * t + 2) / 2.

(** The text written by [updateTimer(elapsed)]. *)
Definition timerRemaining (totalDuration elapsed : Q) : Q :=
  Js.Math_max 0 (totalDuration - elapsed).

Definition timerMinutes (remaining : Q) : Z :=
  Js.Math_floor (remaining / 60000).

Definition timerSeconds (remaining : Q) : Z :=
  Js.Math_floor (Js.rem remaining 60000 / 1000).

Definition formatRemaining (remaining : Q) : string :=
  (Js.toString (timerMinutes remaining) ++ ":"
   ++ Js.padStart 2 "0"%char (Js.toString (timerSeconds remaining)))%string.

Definition timerTextAt (totalDuration elapsed : Q) : string :=
  formatRemaining (timerRemaining totalDuration elapsed).

(** The number computed by [calculateScaleFactor], the quotients being
    exact (see [Binary64.scaleFactorOf] for the rounded ones). *)
Definition scaleFactorOf (maxWidth maxHeight imageWidth imageHeight : Q) : Q :=
  let widthRatio := maxWidth / imageWidth in
  let heightRatio := maxHeight / imageHeight in
  Js.Math_min widthRatio heightRatio 1.

(* ===================================================================== *)
(** ** Data model *)
(* ===================================================================== *)

(** The image handed to the engine: only its dimensions are read. *)
Record HTMLImageElement := {
  image_width : Q;
  image_height : Q
}.

(** A piece bitmap: the canvas element created in one iteration of
    [createPuzzlePieces].  [canvas_cell] is the identity of the element (the
    iteration [(row, col)] that created it); [canvas_width] and
    [canvas_height] are its [width] and [height] attributes, as they read
    after the assignments of [createPuzzlePieces] (integers, see
    [Js.canvasDimension]); the remaining fields are the arguments of the
    one [pieceCtx.drawImage] call that filled it (the destination corner
    is [(0, 0)]). *)
Record HTMLCanvasElement := {
  canvas_cell : nat * nat;
  canvas_width : Q;
  canvas_height : Q;
  blit_sx : Q;
  blit_sy : Q;
  blit_sw : Q;
  blit_sh : Q;
  blit_dw : Q;
  blit_dh : Q
}.

(** [interface JigsawPiece]. *)
Record JigsawPiece := {
  canvas : HTMLCanvasElement;
  originalX : Q;
  originalY : Q;
  currentX : Q;
  currentY : Q;
  width : Q;
  height : Q;
  solved : bool;
  rotation : Q
}.

(** [Required<JigsawOptions>], without the image and the container. *)
Record JigsawOptions := {
  rows : nat;
  cols : nat;
  totalDuration : Q;
  maxRotation : Q;
  maxWidth : Q;
  maxHeight : Q
}.

(** What the engine asks of its host: the results of the successive calls
    of [Math.random()], whether [getContext('2d')] yields a context (for the
    main canvas, [None], and for the piece canvas of a cell), and the clock
    read by [startAnimation]. *)
Record Host := {
  Math_random : nat -> Q;
  getContext : option (nat * nat) -> bool;
  performance_now : Q
}.

(** The calls the engine issues on the main drawing context, by the method
    that issues them: [ctx.drawImage(image, x, y)] and
    [this.drawRotatedImage(ctx, image, x, y, angle)]. *)
Inductive DrawCall :=
| DrawImage (image : HTMLCanvasElement) (x y : Q)
| DrawRotatedImage (image : HTMLCanvasElement) (x y angle : Q).




(** Where a call puts a bitmap: the corner of the unrotated bitmap and the
    angle by which it is turned about its own centre. *)
Definition drawnImage (c : DrawCall) : HTMLCanvasElement :=
  match c with DrawImage i _ _ | DrawRotatedImage i _ _ _ => i end.

Definition renderedPosition (c : DrawCall) : Q * Q :=
  match c with DrawImage _ x y | DrawRotatedImage _ x y _ => (x, y) end.

Definition renderedRotation (c : DrawCall) : Q :=
  match c with DrawImage _ _ _ => 0 | DrawRotatedImage _ _ _ a => a end.

(** [class JigsawPuzzle].  [canvasWidth] and [canvasHeight] are
    [this.canvas.width] and [this.canvas.height], as they read; [ctx] is
    the content of the main canvas, as the calls issued since it was last
    cleared; [timerText] is [this.timerElement.textContent].  The last
    three fields belong to the host: the handles of the frame callbacks
    that are requested and not yet run, the last handle handed out, and
    the number of calls of [Math.random()] made so far. *)
Record JigsawPuzzle := {
  options : JigsawOptions;
  image : HTMLImageElement;
  canvasWidth : Q;
  canvasHeight : Q;
  ctx : list DrawCall;
  pieces : list JigsawPiece;
  animationFrameId : option nat;
  animationStartTime : Q;
  timerText : string;
  solvingOrder : list (option nat);
  currentSolvingIndex : nat;
  pieceMoveDuration : Q;
  scaleFactor : Q;
  frameQueue : list nat;
  lastHandle : nat;
  randomCalls : nat
}.

(** Assignment to one field of the object. *)
Definition set_canvasWidth (v : Q) (s : JigsawPuzzle) : JigsawPuzzle :=
  {| options := options s; image := image s; canvasWidth := v;
     canvasHeight := canvasHeight s; ctx := ctx s; pieces := pieces s;
     animationFrameId := animationFrameId s;
     animationStartTime := animationStartTime s; timerText := timerText s;
     solvingOrder := solvingOrder s;
     currentSolvingIndex := currentSolvingIndex s;
     pieceMoveDuration := pieceMoveDuration s; scaleFactor := scaleFactor s;
     frameQueue := frameQueue s; lastHandle := lastHandle s;
     randomCalls := randomCalls s |}.

Definition set_canvasHeight (v : Q) (s : JigsawPuzzle) : JigsawPuzzle :=
  {| options := options s; image := image s; canvasWidth := canvasWidth s;
     canvasHeight := v; ctx := ctx s; pieces := pieces s;
     animationFrameId := animationFrameId s;
     animationStartTime := animationStartTime s; timerText := timerText s;
     solvingOrder := solvingOrder s;
     currentSolvingIndex := currentSolvingIndex s;
     pieceMoveDuration := pieceMoveDuration s; scaleFactor := scaleFactor s;
     frameQueue := frameQueue s; lastHandle := lastHandle s;
     randomCalls := randomCalls s |}.

Definition set_ctx (v : list DrawCall) (s : JigsawPuzzle) : JigsawPuzzle :=
  {| options := options s; image := image s; canvasWidth := canvasWidth s;
     canvasHeight := canvasHeight s; ctx := v; pieces := pieces s;
     animationFrameId := animationFrameId s;
     animationStartTime := animationStartTime s; timerText := timerText s;
     solvingOrder := solvingOrder s;
     currentSolvingIndex := currentSolvingIndex s;
     pieceMoveDuration := pieceMoveDuration s; scaleFactor := scaleFactor s;
     frameQueue := frameQueue s; lastHandle := lastHandle s;
     randomCalls := randomCalls s |}.

Definition set_pieces (v : list JigsawPiece) (s : JigsawPuzzle) : JigsawPuzzle :=
  {| options := options s; image := image s; canvasWidth := canvasWidth s;
     canvasHeight := canvasHeight s; ctx := ctx s; pieces := v;
     animationFrameId := animationFrameId s;
     animationStartTime := animationStartTime s; timerText := timerText s;
     solvingOrder := solvingOrder s;
     currentSolvingIndex := currentSolvingIndex s;
     pieceMoveDuration := pieceMoveDuration s; scaleFactor := scaleFactor s;
     frameQueue := frameQueue s; lastHandle := lastHandle s;
     randomCalls := randomCalls s |}.

Definition set_animationFrameId (v : option nat) (s : JigsawPuzzle) : JigsawPuzzle :=
  {| options := options s; image := image s; canvasWidth := canvasWidth s;
     canvasHeight := canvasHeight s; ctx := ctx s; pieces := pieces s;
     animationFrameId := v; animationStartTime := animationStartTime s;
     timerText := timerText s; solvingOrder := solvingOrder s;
     currentSolvingIndex := currentSolvingIndex s;
     pieceMoveDuration := pieceMoveDuration s; scaleFactor := scaleFactor s;
     frameQueue := frameQueue s; lastHandle := lastHandle s;
     randomCalls := randomCalls s |}.

Definition set_animationStartTime (v : Q) (s : JigsawPuzzle) : JigsawPuzzle :=
  {| options := options s; image := image s; canvasWidth := canvasWidth s;
     canvasHeight := canvasHeight s; ctx := ctx s; pieces := pieces s;
     animationFrameId := animationFrameId s; animationStartTime := v;
     timerText := timerText s; solvingOrder := solvingOrder s;
     currentSolvingIndex := currentSolvingIndex s;
     pieceMoveDuration := pieceMoveDuration s; scaleFactor := scaleFactor s;
     frameQueue := frameQueue s; lastHandle := lastHandle s;
     randomCalls := randomCalls s |}.

Definition set_timerText (v : string) (s : JigsawPuzzle) : JigsawPuzzle :=
  {| options := options s; image := image s; canvasWidth := canvasWidth s;
     canvasHeight := canvasHeight s; ctx := ctx s; pieces := pieces s;
     animationFrameId := animationFrameId s;
     animationStartTime := animationStartTime s; timerText := v;
     solvingOrder := solvingOrder s;
     currentSolvingIndex := currentSolvingIndex s;
     pieceMoveDuration := pieceMoveDuration s; scaleFactor := scaleFactor s;
     frameQueue := frameQueue s; lastHandle := lastHandle s;
     randomCalls := randomCalls s |}.

Definition set_solvingOrder (v : list (option nat)) (s : JigsawPuzzle) : JigsawPuzzle :=
  {| options := options s; image := image s; canvasWidth := canvasWidth s;
     canvasHeight := canvasHeight s; ctx := ctx s; pieces := pieces s;
     animationFrameId := animationFrameId s;
     animationStartTime := animationStartTime s; timerText := timerText s;
     solvingOrder := v; currentSolvingIndex := currentSolvingIndex s;
     pieceMoveDuration := pieceMoveDuration s; scaleFactor := scaleFactor s;
     frameQueue := frameQueue s; lastHandle := lastHandle s;
     randomCalls := randomCalls s |}.

Definition set_currentSolvingIndex (v : nat) (s : JigsawPuzzle) : JigsawPuzzle :=
  {| options := options s; image := image s; canvasWidth := canvasWidth s;
     canvasHeight := canvasHeight s; ctx := ctx s; pieces := pieces s;
     animationFrameId := animationFrameId s;
     animationStartTime := animationStartTime s; timerText := timerText s;
     solvingOrder := solvingOrder s; currentSolvingIndex := v;
     pieceMoveDuration := pieceMoveDuration s; scaleFactor := scaleFactor s;
     frameQueue := frameQueue s; lastHandle := lastHandle s;
     randomCalls := randomCalls s |}.

Definition set_pieceMoveDuration (v : Q) (s : JigsawPuzzle) : JigsawPuzzle :=
  {| options := options s; image := image s; canvasWidth := canvasWidth s;
     canvasHeight := canvasHeight s; ctx := ctx s; pieces := pieces s;
     animationFrameId := animationFrameId s;
     animationStartTime := animationStartTime s; timerText := timerText s;
     solvingOrder := solvingOrder s;
     currentSolvingIndex := currentSolvingIndex s; pieceMoveDuration := v;
     scaleFactor := scaleFactor s; frameQueue := frameQueue s;
     lastHandle := lastHandle s; randomCalls := randomCalls s |}.

Definition set_scaleFactor (v : Q) (s : JigsawPuzzle) : JigsawPuzzle :=
  {| options := options s; image := image s; canvasWidth := canvasWidth s;
     canvasHeight := canvasHeight s; ctx := ctx s; pieces := pieces s;
     animationFrameId := animationFrameId s;
     animationStartTime := animationStartTime s; timerText := timerText s;
     solvingOrder := solvingOrder s;
     currentSolvingIndex := currentSolvingIndex s;
     pieceMoveDuration := pieceMoveDuration s; scaleFactor := v;
     frameQueue := frameQueue s; lastHandle := lastHandle s;
     randomCalls := randomCalls s |}.

Definition set_frameQueue (v : list nat) (s : JigsawPuzzle) : JigsawPuzzle :=
  {| options := options s; image := image s; canvasWidth := canvasWidth s;
     canvasHeight := canvasHeight s; ctx := ctx s; pieces := pieces s;
     animationFrameId := animationFrameId s;
     animationStartTime := animationStartTime s; timerText := timerText s;
     solvingOrder := solvingOrder s;
     currentSolvingIndex := currentSolvingIndex s;
     pieceMoveDuration := pieceMoveDuration s; scaleFactor := scaleFactor s;
     frameQueue := v; lastHandle := lastHandle s;
     randomCalls := randomCalls s |}.

Definition set_lastHandle (v : nat) (s : JigsawPuzzle) : JigsawPuzzle :=
  {| options := options s; image := image s; canvasWidth := canvasWidth s;
     canvasHeight := canvasHeight s; ctx := ctx s; pieces := pieces s;
     animationFrameId := animationFrameId s;
     animationStartTime := animationStartTime s; timerText := timerText s;
     solvingOrder := solvingOrder s;
     currentSolvingIndex := currentSolvingIndex s;
     pieceMoveDuration := pieceMoveDuration s; scaleFactor := scaleFactor s;
     frameQueue := frameQueue s; lastHandle := v;
     randomCalls := randomCalls s |}.

Definition set_randomCalls (v : nat) (s : JigsawPuzzle) : JigsawPuzzle :=
  {| options := options s; image := image s; canvasWidth := canvasWidth s;
     canvasHeight := canvasHeight s; ctx := ctx s; pieces := pieces s;
     animationFrameId := animationFrameId s;
     animationStartTime := animationStartTime s; timerText := timerText s;
     solvingOrder := solvingOrder s;
     currentSolvingIndex := currentSolvingIndex s;
     pieceMoveDuration := pieceMoveDuration s; scaleFactor := scaleFactor s;
     frameQueue := frameQueue s; lastHandle := lastHandle s;
     randomCalls := v |}.

(* ===================================================================== *)
(** ** JavaScript arrays of indices *)
(* ===================================================================== *)

(** An array element is a number or [undefined] ([None]).  Reading past the
    end yields [undefined]; writing past the end extends the array, the
    skipped positions reading [undefined]. *)
Definition arrayGet (a : list (option nat)) (i : nat) : option nat :=
  match a !! i with
  | Some v => v
  | None => None
  end.

Definition arraySet (a : list (option nat)) (i : nat) (v : option nat)
  : list (option nat) :=
  if decide (i < length a)%nat then <[i:=v]> a
  else a ++ replicate (i - length a) None ++ [v].

(** [[a[i], a[j]] = [a[j], a[i]]]: both reads come first, then the write to
    [a[i]], then the write to [a[j]]. *)
Definition swapElements (a : list (option nat)) (i j : nat)
  : list (option nat) :=
  let x := arrayGet a j in
  let y := arrayGet a i in
  arraySet (arraySet a i x) j y.

(** [Array.from({ length: n }, (_, i) => i)]. *)
Definition indexArray (n : nat) : list (option nat) := Some <$> seq 0 n.

(* ===================================================================== *)
(** ** Initialisation *)
(* ===================================================================== *)

(** The object after the field initialisers and the constructor, before
    [init] runs. *)
Definition construct (o : JigsawOptions) (img : HTMLImageElement)
  : JigsawPuzzle :=
  {| options := o;
     image := img;
     canvasWidth := 0;
     canvasHeight := 0;
     ctx := [];
     pieces := [];
     animationFrameId := None;
     animationStartTime := 0;
     timerText := "";
     solvingOrder := [];
     currentSolvingIndex := 0;
     pieceMoveDuration := 0;
     scaleFactor := 1;
     frameQueue := [];
     lastHandle := 0;
     randomCalls := 0 |}.

Definition calculateScaleFactor (s : JigsawPuzzle) : JigsawPuzzle :=
  set_scaleFactor
    (scaleFactorOf (maxWidth (options s)) (maxHeight (options s))
                   (image_width (image s)) (image_height (image s))) s.

(** [setupCanvas]; [None] is the thrown
    [Error('Could not get canvas context')].  The canvas keeps the integer
    parts of the two products assigned to its [width] and [height]. *)
Definition setupCanvas (h : Host) (s : JigsawPuzzle) : option JigsawPuzzle :=
  let s := set_canvasWidth
             (Js.canvasDimension 300 (image_width (image s) * scaleFactor s))
             s in
  let s := set_canvasHeight
             (Js.canvasDimension 150 (image_height (image s) * scaleFactor s))
             s in
  if getContext h None then Some (set_ctx [] s) else None.

(** The object pushed in iteration [(row, col)] of [createPuzzlePieces].
    The piece canvas keeps the integer parts of the sizes assigned to it;
    the [width] and [height] of the piece object are the sizes
    themselves. *)
Definition newPiece (originalPieceWidth originalPieceHeight
                     scaledPieceWidth scaledPieceHeight : Q)
                    (row col : nat) : JigsawPiece :=
  {| canvas :=
       {| canvas_cell := (row, col);
          canvas_width := Js.canvasDimension 300 scaledPieceWidth;
          canvas_height := Js.canvasDimension 150 scaledPieceHeight;
          blit_sx := Js.of_nat col * originalPieceWidth;
          blit_sy := Js.of_nat row * originalPieceHeight;
          blit_sw := originalPieceWidth;
          blit_sh := originalPieceHeight;
          blit_dw := scaledPieceWidth;
          blit_dh := scaledPieceHeight |};
     originalX := Js.of_nat col * scaledPieceWidth;
     originalY := Js.of_nat row * scaledPieceHeight;
     currentX := Js.of_nat col * scaledPieceWidth;
     currentY := Js.of_nat row * scaledPieceHeight;
     width := scaledPieceWidth;
     height := scaledPieceHeight;
     solved := false;
     rotation := 0 |}.

(** The pieces pushed by the two nested loops; an iteration whose canvas
    yields no context pushes nothing ([continue]). *)
Definition slicePieces (h : Host) (rows cols : nat)
                       (imageWidth imageHeight scaleFactor : Q)
  : list JigsawPiece :=
  let originalPieceWidth := imageWidth / Js.of_nat cols in
  let originalPieceHeight := imageHeight / Js.of_nat rows in
  let scaledPieceWidth := originalPieceWidth * scaleFactor in
  let scaledPieceHeight := originalPieceHeight * scaleFactor in
  flat_map (fun row =>
    flat_map (fun col =>
      if getContext h (Some (row, col))
      then [newPiece originalPieceWidth originalPieceHeight
                     scaledPieceWidth scaledPieceHeight row col]
      else [])
      (seq 0 cols))
    (seq 0 rows).

Definition createPuzzlePieces (h : Host) (s : JigsawPuzzle) : JigsawPuzzle :=
  set_pieces
    (pieces s ++
     slicePieces h (rows (options s)) (cols (options s))
                 (image_width (image s)) (image_height (image s))
                 (scaleFactor s)) s.

(** One call of the [forEach] callback of [shufflePieces]; [k] is the number
    of calls of [Math.random()] made before it. *)
Definition scatter (h : Host) (canvasWidth canvasHeight maxRotation : Q)
                   (k : nat) (piece : JigsawPiece) : JigsawPiece :=
  {| canvas := canvas piece;
     originalX := originalX piece;
     originalY := originalY piece;
     currentX :=
       Math_random h k * (canvasWidth * (3 # 2)) - canvasWidth * (1 # 4);
     currentY :=
       Math_random h (k + 1) * (canvasHeight * (3 # 2))
       - canvasHeight * (1 # 4);
     width := width piece;
     height := height piece;
     solved := solved piece;
     rotation := (Math_random h (k + 2) * 2 - 1) * maxRotation |}.

Fixpoint scatterAll (h : Host) (canvasWidth canvasHeight maxRotation : Q)
                    (k : nat) (ps : list JigsawPiece) : list JigsawPiece :=
  match ps with
  | [] => []
  | piece :: ps' =>
      scatter h canvasWidth canvasHeight maxRotation k piece
      :: scatterAll h canvasWidth canvasHeight maxRotation (k + 3) ps'
  end.

Definition shufflePieces (h : Host) (s : JigsawPuzzle) : JigsawPuzzle :=
  let shuffled :=
    scatterAll h (canvasWidth s) (canvasHeight s) (maxRotation (options s))
               (randomCalls s) (pieces s) in
  set_randomCalls (randomCalls s + 3 * length (pieces s))
    (set_pieces shuffled s).

(** The loop [for (let i = length - 1; i > 0; i--)] of [setupSolvingOrder],
    entered with loop variable [i]; [k] counts the calls of [Math.random()]
    made before.  [Math.random()] lies in [[0, 1)], so [j] is a
    non-negative integer. *)
Fixpoint shuffleOrder (h : Host) (k i : nat) (a : list (option nat))
  : list (option nat) :=
  match i with
  | O => a
  | S i' =>
      let j := Z.to_nat (Js.Math_floor (Math_random h k * Js.of_nat (i + 1))) in
      shuffleOrder h (S k) i' (swapElements a i j)
  end.

Definition setupSolvingOrder (h : Host) (s : JigsawPuzzle) : JigsawPuzzle :=
  let s := set_solvingOrder (indexArray (length (pieces s))) s in
  let n := length (solvingOrder s) in
  let s := set_solvingOrder
             (shuffleOrder h (randomCalls s) (n - 1) (solvingOrder s)) s in
  let s := set_randomCalls (randomCalls s + (n - 1)) s in
  set_pieceMoveDuration
    (totalDuration (options s) / Js.of_nat (length (pieces s))) s.

(** [requestAnimationFrame(this.animate.bind(this))]: the host hands out a
    fresh positive handle and queues the callback. *)
Definition requestAnimationFrame (s : JigsawPuzzle) : nat * JigsawPuzzle :=
  let handle := S (lastHandle s) in
  (handle, set_lastHandle handle (set_frameQueue (frameQueue s ++ [handle]) s)).

(** [cancelAnimationFrame(handle)]. *)
Definition cancelAnimationFrame (handle : nat) (s : JigsawPuzzle)
  : JigsawPuzzle :=
  set_frameQueue (filter (fun h => h <> handle) (frameQueue s)) s.

Definition startAnimation (h : Host) (s : JigsawPuzzle) : JigsawPuzzle :=
  let s := set_animationStartTime (performance_now h) s in
  let '(handle, s) := requestAnimationFrame s in
  set_animationFrameId (Some handle) s.

(** The steps of [init] that follow the [if] on the image, on the object
    as it is when [this.image] is available.  [setupTimer] styles and
    attaches the timer element and leaves its text alone. *)
Definition initSteps (h : Host) (s : JigsawPuzzle) : option JigsawPuzzle :=
  let s := calculateScaleFactor s in
  match setupCanvas h s with
  | None => None
  | Some s =>
      let s := createPuzzlePieces h s in
      let s := shufflePieces h s in
      let s := setupSolvingOrder h s in
      Some (startAnimation h s)
  end.

(** [init] with the image [img] at hand: an element passed in the options,
    or the image that [loadImage] has loaded. *)
Definition init (h : Host) (o : JigsawOptions) (img : HTMLImageElement)
  : option JigsawPuzzle :=
  initSteps h (construct o img).

(** [options.image]: an image element, or the URL of an image. *)
Inductive ImageOption :=
| ImageElement (img : HTMLImageElement)
| ImageUrl (url : string).

(** [new JigsawPuzzle(options)] until [init] settles.  The constructor
    calls [init] and does not wait for it.  For a URL, [init] awaits
    [loadImage(url)], a promise that the host settles: [loadImage url] is
    the image when [onload] fires, and [None] when [onerror] rejects, which
    ends [init] with nothing built.  In between, the object is as the
    constructor left it. *)
Definition create (h : Host) (loadImage : string -> option HTMLImageElement)
    (o : JigsawOptions) (source : ImageOption) : option JigsawPuzzle :=
  match source with
  | ImageElement img => init h o img
  | ImageUrl url =>
      match loadImage url with
      | Some img => init h o img
      | None => None
      end
  end.

(* ===================================================================== *)
(** ** The frame callback *)
(* ===================================================================== *)

(** [updateTimer(elapsed)]. *)
Definition updateTimer (elapsed : Q) (s : JigsawPuzzle) : JigsawPuzzle :=
  set_timerText (timerTextAt (totalDuration (options s)) elapsed) s.

(** [this.ctx.clearRect(0, 0, this.canvas.width, this.canvas.height)]: the
    whole surface is erased (outside [drawRotatedImage], which restores it,
    the transform is the identity). *)
Definition clearRect (s : JigsawPuzzle) : JigsawPuzzle := set_ctx [] s.

Definition issue (calls : list DrawCall) (s : JigsawPuzzle) : JigsawPuzzle :=
  set_ctx (ctx s ++ calls) s.

(** The callback of the first [forEach] of [animate]. *)
Definition drawPiece (piece : JigsawPiece) : DrawCall :=
  if solved piece
  then DrawImage (canvas piece) (originalX piece) (originalY piece)
  else DrawRotatedImage (canvas piece) (currentX piece) (currentY piece)
                        (rotation piece).

(** The callback of the last [forEach] of [animate]. *)
Definition drawHome (piece : JigsawPiece) : DrawCall :=
  DrawImage (canvas piece) (originalX piece) (originalY piece).

(** [progress], as computed for the piece at [currentSolvingIndex].  The
    quotient is that of [Q]: for a [pieceMoveDuration] of 0, where
    JavaScript computes an infinity or [NaN], it is 0, so the value of
    [progressAt] stands for the progress of the engine only when
    [pieceMoveDuration] is not 0. *)
Definition pieceElapsedAt (s : JigsawPuzzle) (elapsed : Q) : Q :=
  elapsed - Js.of_nat (currentSolvingIndex s) * pieceMoveDuration s.

Definition progressAt (s : JigsawPuzzle) (elapsed : Q) : Q :=
  Js.Math_min2 (pieceElapsedAt s elapsed / pieceMoveDuration s) 1.

(** The draw of the piece in transit. *)
Definition drawActive (piece : JigsawPiece) (easedProgress : Q) : DrawCall :=
  let x := currentX piece + (originalX piece - currentX piece) * easedProgress in
  let y := currentY piece + (originalY piece - currentY piece) * easedProgress in
  let rotation := rotation piece + (0 - rotation piece) * easedProgress in
  DrawRotatedImage (canvas piece) x y rotation.

(** [piece.solved = true; piece.rotation = 0]. *)
Definition markSolved (piece : JigsawPiece) : JigsawPiece :=
  {| canvas := canvas piece;
     originalX := originalX piece;
     originalY := originalY piece;
     currentX := currentX piece;
     currentY := currentY piece;
     width := width piece;
     height := height piece;
     solved := true;
     rotation := 0 |}.

(** The block guarded by
    [this.currentSolvingIndex < this.solvingOrder.length].  [None] is the
    [TypeError] raised by [piece.currentX] when [piece] is [undefined]. *)
Definition advance (elapsed : Q) (s : JigsawPuzzle) : option JigsawPuzzle :=
  if decide (currentSolvingIndex s < length (solvingOrder s))%nat then
    match arrayGet (solvingOrder s) (currentSolvingIndex s) with
    | None => None
    | Some currentPieceIndex =>
        match pieces s !! currentPieceIndex with
        | None => None
        | Some piece =>
            let progress := progressAt s elapsed in
            let easedProgress := easeInOutCubic progress in
            let s := issue [drawActive piece easedProgress] s in
            if Js.geb progress 1 then
              Some (set_currentSolvingIndex (S (currentSolvingIndex s))
                     (set_pieces
                        (<[currentPieceIndex := markSolved piece]> (pieces s))
                        s))
            else Some s
        end
    end
  else Some s.

(** A handle is truthy when it is neither [null] nor [0]. *)
Definition truthy (handle : option nat) : option nat :=
  match handle with
  | Some (S n) => Some (S n)
  | _ => None
  end.

(** The last [if] of [animate]. *)
Definition finish (elapsed : Q) (s : JigsawPuzzle) : JigsawPuzzle :=
  if Js.ltb elapsed (totalDuration (options s)) then
    let '(handle, s) := requestAnimationFrame s in
    set_animationFrameId (Some handle) s
  else
    let s := match truthy (animationFrameId s) with
             | Some handle => cancelAnimationFrame handle s
             | None => s
             end in
    let s := updateTimer (totalDuration (options s)) s in
    let s := clearRect s in
    issue (map drawHome (pieces s)) s.

(** [animate(currentTime)]. *)
Definition animate (currentTime : Q) (s : JigsawPuzzle)
  : option JigsawPuzzle :=
  let elapsed := currentTime - animationStartTime s in
  let s := updateTimer elapsed s in
  let s := clearRect s in
  let s := issue (map drawPiece (pieces s)) s in
  match advance elapsed s with
  | None => None
  | Some s => Some (finish elapsed s)
  end.

(** The host runs the oldest requested callback, with its timestamp. *)
Inductive frame (currentTime : Q) (s s' : JigsawPuzzle) : Prop :=
| frame_run handle rest :
    frameQueue s = handle :: rest ->
    animate currentTime (set_frameQueue rest s) = Some s' ->
    frame currentTime s s'.

(** A run: the frames called back at the given timestamps, in order. *)
Inductive run : list Q -> JigsawPuzzle -> JigsawPuzzle -> Prop :=
| run_nil s : run [] s s
| run_cons t ts s s' s'' : frame t s s' -> run ts s' s'' -> run (t :: ts) s s''.

(** The states of the engine: those reached from [init] by frames. *)
Definition reachable (h : Host) (o : JigsawOptions) (img : HTMLImageElement)
                     (s : JigsawPuzzle) : Prop :=
  exists s0 ts, init h o img = Some s0 /\ run ts s0 s.

(** The same run as a function, for evaluation: [None] when a frame throws
    or when a timestamp is left and no callback is requested any more. *)
Definition frameOf (currentTime : Q) (s : JigsawPuzzle) : option JigsawPuzzle :=
  match frameQueue s with
  | [] => None
  | _ :: rest => animate currentTime (set_frameQueue rest s)
  end.

Fixpoint runOf (ts : list Q) (s : JigsawPuzzle) : option JigsawPuzzle :=
  match ts with
  | [] => Some s
  | t :: ts' =>
      match frameOf t s with
      | None => None
      | Some s' => runOf ts' s'
      end
  end.

(* ===================================================================== *)
(** ** The page: reading the duration from the query *)
(* ===================================================================== *)

Module Page.

(** A number of the page: [NaN] or a finite value. *)
Inductive JsNumber :=
| NaN
| Num (q : Q).

(** The values met by [??]. *)
Inductive JsValue :=
| Null
| Undefined
| Number (n : JsNumber).

(** [URLSearchParams]: the decoded name/value pairs, in order. *)
Definition URLSearchParams := list (string * string).

(** [urlParams.get(name)]: the first value of that name, or [null]
    ([None]). *)
Fixpoint get (params : URLSearchParams) (name : string) : option string :=
  match params with
  | [] => None
  | (k, v) :: rest => if String.eqb k name then Some v else get rest name
  end.

(** [ToString] of the argument of [parseInt]. *)
Definition ToString (v : option string) : string :=
  match v with
  | None => "null"
  | Some s => s
  end.

(** White space skipped by [parseInt] (the ASCII part of it). *)
Definition isWhiteSpace (c : ascii) : bool :=
  let n := nat_of_ascii c in
  ((9 <=? n) && (n <=? 13) || (n =? 32))%nat.

Fixpoint trimStart (s : string) : string :=
  match s with
  | String c rest => if isWhiteSpace c then trimStart rest else s
  | EmptyString => s
  end.

(** The value of a digit in a radix, if it is one. *)
Definition digitValue (radix : nat) (c : ascii) : option Z :=
  let n := nat_of_ascii c in
  let v := if ((48 <=? n) && (n <=? 57))%nat then Some (n - 48)%nat
           else if ((97 <=? n) && (n <=? 122))%nat then Some (n - 87)%nat
           else if ((65 <=? n) && (n <=? 90))%nat then Some (n - 55)%nat
           else None in
  match v with
  | Some d => if (d <? radix)%nat then Some (Z.of_nat d) else None
  | None => None
  end.

(** The longest prefix of digits, read in the radix; [None] when the
    prefix is empty. *)
Fixpoint digits (radix : nat) (acc : option Z) (s : string) : option Z :=
  match s with
  | String c rest =>
      match digitValue radix c with
      | Some d =>
          digits radix (Some (default 0%Z acc * Z.of_nat radix + d)%Z) rest
      | None => acc
      end
  | EmptyString => acc
  end.

(** [parseInt(v)], with no radix argument.  The result is the integer that
    the digits denote; JavaScript returns the binary64 number nearest to
    it, which is that integer up to 2^53. *)
Definition parseInt (v : option string) : JsValue :=
  let str := trimStart (ToString v) in
  let '(sign, str) :=
    match str with
    | String "-" rest => ((-1)%Z, rest)
    | String "+" rest => (1%Z, rest)
    | _ => (1%Z, str)
    end in
  let '(radix, str) :=
    match str with
    | String "0" (String "x" rest) => (16%nat, rest)
    | String "0" (String "X" rest) => (16%nat, rest)
    | _ => (10%nat, str)
    end in
  match digits radix None str with
  | None => Number NaN
  | Some number => Number (Num (inject_Z (sign * number)))
  end.

(** [a ?? b]. *)
Definition coalesce (a b : JsValue) : JsValue :=
  match a with
  | Null | Undefined => b
  | _ => a
  end.

(** [ToNumber] and [a * b]. *)
Definition ToNumber (v : JsValue) : JsNumber :=
  match v with
  | Null => Num 0
  | Undefined => NaN
  | Number n => n
  end.

Definition mul (a b : JsValue) : JsNumber :=
  match ToNumber a, ToNumber b with
  | Num x, Num y => Num (x * y)
  | _, _ => NaN
  end.

(** [const minutes = parseInt(urlParams.get('minutes')) ?? 2]. *)
Definition minutes (urlParams : URLSearchParams) : JsValue :=
  coalesce (parseInt (get urlParams "minutes")) (Number (Num 2)).

(** The numeric options passed to [new Jigsaw({...})]. *)
Record Options := {
  rows : nat;
  cols : nat;
  totalDuration : JsNumber;
  maxRotation : Q
}.

Definition puzzleOptions (urlParams : URLSearchParams) : Options :=
  {| rows := 10;
     cols := 10;
     totalDuration := mul (minutes urlParams) (Number (Num 60000));
     maxRotation := 360 |}.

End Page.

(* ===================================================================== *)
(** ** The sizes, once more, in binary64 *)
(* ===================================================================== *)

(** The numbers of [calculateScaleFactor], [setupCanvas] and
    [createPuzzlePieces] with the arithmetic of JavaScript: binary64, each
    operator rounding to the nearest number. *)
Module Binary64.

(** A count or a loop counter as a number (exact below 2^53). *)
Fixpoint of_nat (n : nat) : float :=
  match n with
  | O => 0%float
  | S n' => (of_nat n' + 1)%float
  end.

(** [Math.min]: [NaN] when an argument is, and [-0] is below [+0]. *)
Definition Math_min2 (a b : float) : float :=
  if (PrimFloat.is_nan a || PrimFloat.is_nan b)%bool then PrimFloat.nan
  else if PrimFloat.ltb b a then b
  else if PrimFloat.ltb a b then a
  else if PrimFloat.get_sign a then a else b.

Definition Math_min (a b c : float) : float := Math_min2 (Math_min2 a b) c.

(** [calculateScaleFactor]. *)
Definition scaleFactorOf (maxWidth maxHeight imageWidth imageHeight : float)
  : float :=
  let widthRatio := (maxWidth / imageWidth)%float in
  let heightRatio := (maxHeight / imageHeight)%float in
  Math_min widthRatio heightRatio 1%float.

(** The number assigned to [canvas.width] (to [canvas.height]) by
    [setupCanvas]: [image.width * scaleFactor]. *)
Definition scaledSize (imageSize scaleFactor : float) : float :=
  (imageSize * scaleFactor)%float.

(** [scaledPieceWidth] ([scaledPieceHeight]) of [createPuzzlePieces]:
    [image.width / cols * scaleFactor]. *)
Definition scaledPieceSize (imageSize : float) (count : nat)
    (scaleFactor : float) : float :=
  (imageSize / of_nat count * scaleFactor)%float.

(** [originalX] ([originalY]) of the piece of column (row) [index]:
    [col * scaledPieceWidth]. *)
Definition original (index : nat) (scaledPieceSize : float) : float :=
  (of_nat index * scaledPieceSize)%float.

(** On one axis, the home rectangle of a piece holds the points from
    [original] up to [original + size], the latter excluded. *)
Definition covers (index : nat) (size x : float) : bool :=
  (PrimFloat.leb (original index size) x
   && PrimFloat.ltb x (original index size + size)%float)%bool.

End Binary64.

(* ===================================================================== *)
(** ** Vocabulary of the properties *)
(* ===================================================================== *)

(** The decimal digit [d] as a character. *)
Definition digit (d : Z) : ascii := ascii_of_nat (48 + Z.to_nat d).

(** The whole seconds shown by the countdown. *)
Definition shownSeconds (totalDuration elapsed : Q) : Z :=
  let remaining := timerRemaining totalDuration elapsed in
  (60 * timerMinutes remaining + timerSeconds remaining)%Z.

(** Every piece canvas of the grid yields a drawing context. *)
Definition contextsAvailable (h : Host) (rows cols : nat) : Prop :=
  forall row col, (row < rows)%nat -> (col < cols)%nat ->
    getContext h (Some (row, col)) = true.

(** [Math.random()] returns a number of [[0, 1)]. *)
Definition randomInRange (h : Host) : Prop :=
  forall k, 0 <= Math_random h k /\ Math_random h k < 1.

(** The Fisher-Yates shuffle, as the textbook has it, on a list without
    holes: for [i] from the last index down to 1, exchange the elements at
    [i] and at a picked [j] with [0 <= j <= i]. *)
Definition exchange (p : list nat) (i j : nat) : list nat :=
  match p !! i, p !! j with
  | Some x, Some y => <[j:=x]> (<[i:=y]> p)
  | _, _ => p
  end.

Fixpoint fisherYates (pick : nat -> nat) (i : nat) (p : list nat) : list nat :=
  match i with
  | O => p
  | S i' => fisherYates pick i' (exchange p i (pick i))
  end.

(** The index picked by [setupSolvingOrder] for loop variable [i], when
    [k] calls of [Math.random()] came before the loop over [n] elements. *)
Definition picked (h : Host) (k n i : nat) : nat :=
  Z.to_nat (Js.Math_floor (Math_random h (k + (n - 1 - i)) * Js.of_nat (i + 1))).

(** What holds of every state of the engine, for its solving order
    [order]. *)
Record Invariant (h : Host) (o : JigsawOptions) (order : list nat)
    (s : JigsawPuzzle) : Prop := {
  inv_options : options s = o;
  inv_start : animationStartTime s = performance_now h;
  inv_order : solvingOrder s = Some <$> order;
  inv_perm : order ≡ₚ seq 0 (length (pieces s));
  inv_index : (currentSolvingIndex s <= length order)%nat;
  inv_solved :
    forall k i piece,
      order !! k = Some i -> pieces s !! i = Some piece ->
      solved piece = bool_decide (k < currentSolvingIndex s)%nat;
  inv_duration :
    pieceMoveDuration s = totalDuration o / Js.of_nat (length (pieces s));
  inv_queue : (length (frameQueue s) <= 1)%nat
}.

(** The fields of a piece that [markSolved] leaves alone. *)
Definition sameGeometry (p q : JigsawPiece) : Prop :=
  canvas q = canvas p
  /\ originalX q = originalX p /\ originalY q = originalY p
  /\ currentX q = currentX p /\ currentY q = currentY p
  /\ width q = width p /\ height q = height p.

(** The state in which [animate] reaches the block of the piece in
    transit, when the host has taken the callback off its queue. *)
Definition painted (e : Q) (rest : list nat) (s : JigsawPuzzle) : JigsawPuzzle :=
  let s := set_frameQueue rest s in
  let s := updateTimer e s in
  let s := clearRect s in
  issue (map drawPiece (pieces s)) s.

(** The calls of one frame for the piece in transit, and what the frame
    does to the pieces and to the index. *)
Definition transit (order : list nat) (e : Q) (s s' : JigsawPuzzle)
    (active : list DrawCall) : Prop :=
  ((length order <= currentSolvingIndex s)%nat
   /\ active = []
   /\ pieces s' = pieces s
   /\ currentSolvingIndex s' = currentSolvingIndex s)
  \/ (exists idx piece,
        order !! currentSolvingIndex s = Some idx
        /\ pieces s !! idx = Some piece
        /\ solved piece = false
        /\ active = [drawActive piece (easeInOutCubic (progressAt s e))]
        /\ ((progressAt s e < 1
             /\ pieces s' = pieces s
             /\ currentSolvingIndex s' = currentSolvingIndex s)
            \/ (1 <= progressAt s e
                /\ pieces s' = <[idx := markSolved piece]> (pieces s)
                /\ currentSolvingIndex s' = S (currentSolvingIndex s)))).

(** What the frame leaves on the canvas, in the countdown and in the
    queue of the host. *)
Definition output (e : Q) (s s' : JigsawPuzzle) (active : list DrawCall)
  : Prop :=
  let total := totalDuration (options s) in
  (e < total
   /\ ctx s' = map drawPiece (pieces s) ++ active
   /\ timerText s' = timerTextAt total e
   /\ exists handle, frameQueue s' = [handle])
  \/ (total <= e
      /\ ctx s' = map drawHome (pieces s')
      /\ timerText s' = timerTextAt total total
      /\ frameQueue s' = []).

(** The progress of the piece of index [i] on a frame that observes
    [elapsed]: 1 once it is solved, the progress computed by the frame for
    the piece in transit, 0 for a piece not reached yet. *)
Definition pieceProgress (s : JigsawPuzzle) (elapsed : Q) (i : nat) : Q :=
  match pieces s !! i with
  | Some piece =>
      if solved piece then 1
      else if decide (arrayGet (solvingOrder s) (currentSolvingIndex s) = Some i)
           then progressAt s elapsed
           else 0
  | None => 0
  end.

(** [clamp(x, lo, hi)]. *)
Definition clamp (x lo hi : Q) : Q := Qmax lo (Qmin x hi).

(** Timestamps that do not decrease, starting from [from]. *)
Fixpoint nondecreasing (from : Q) (ts : list Q) : Prop :=
  match ts with
  | [] => True
  | t :: ts' => from <= t /\ nondecreasing t ts'
  end.

(** The last of the timestamps, [from] when there is none. *)
Fixpoint lastOf (from : Q) (ts : list Q) : Q :=
  match ts with
  | [] => from
  | t :: ts' => lastOf t ts'
  end.

(** The window of the piece in transit has begun by time [now]. *)
Definition windowBegun (now : Q) (s : JigsawPuzzle) : Prop :=
  Js.of_nat (currentSolvingIndex s) * pieceMoveDuration s
  <= now - animationStartTime s.

(** A small puzzle: two pieces side by side, 2048 ms in all. *)
Definition demoHost : Host :=
  {| Math_random := fun _ => 1 # 2;
     getContext := fun _ => true;
     performance_now := 0 |}.

Definition demoOptions : JigsawOptions :=
  {| rows := 1;
     cols := 2;
     totalDuration := 2048;
     maxRotation := 45;
     maxWidth := 512;
     maxHeight := 512 |}.

Definition demoImage : HTMLImageElement :=
  {| image_width := 256; image_height := 128 |}.

(** Its state after [init], after a first frame at 16 ms, and after a
    second frame that comes only at 2048 ms. *)
Definition demoStart : JigsawPuzzle :=
  default (construct demoOptions demoImage)
          (init demoHost demoOptions demoImage).

Definition demoNext : JigsawPuzzle := default demoStart (frameOf 16 demoStart).

Definition demoEnd : JigsawPuzzle := default demoNext (frameOf 2048 demoNext).



(** The host of the small puzzle, except that the canvas of the second
    piece yields no drawing context. *)
Definition demoHostNoContext : Host :=
  {| Math_random := fun _ => 1 # 2;
     getContext := fun target =>
       match target with
       | Some (0%nat, 1%nat) => false
       | _ => true
       end;
     performance_now := 0 |}.


Definition demoNoContextStart : JigsawPuzzle :=
  default (construct demoOptions demoImage)
          (init demoHostNoContext demoOptions demoImage).

(* ===================================================================== *)
(** ** Further methods and vocabulary *)
(* ===================================================================== *)

(** The children of the container: [setupCanvas] empties it and appends
    the canvas, [setupTimer] appends the timer element. *)
Inductive Node :=
| CanvasNode
| TimerNode.

(** [destroy()], on the object and on the children of its container. *)
Definition destroy (s : JigsawPuzzle) (children : list Node)
  : JigsawPuzzle * list Node :=
  let s := match truthy (animationFrameId s) with
           | Some handle => cancelAnimationFrame handle s
           | None => s
           end in
  (s, []).

(** The cells of the grid in the order of the two loops of
    [createPuzzlePieces]. *)
Definition gridCells (rows cols : nat) : list (nat * nat) :=
  flat_map (fun row => map (pair row) (seq 0 cols)) (seq 0 rows).

(** The number of solved pieces. *)
Definition solvedCount (ps : list JigsawPiece) : nat :=
  length (List.filter solved ps).

(** The two states of the animation: a callback is requested, whose handle
    the object holds; or none is, and the finished picture is shown. *)
Definition Running (s : JigsawPuzzle) : Prop :=
  exists handle,
    frameQueue s = [handle]
    /\ animationFrameId s = Some handle
    /\ lastHandle s = handle
    /\ (1 <= handle)%nat.

Definition Finished (s : JigsawPuzzle) : Prop :=
  frameQueue s = []
  /\ ctx s = map drawHome (pieces s)
  /\ timerText s = "0:00"%string.







(** The page: the choice of the image. *)
Module Catalog.

(** [imageModules]: the keys found by the glob, in the order of
    [Object.keys], each with its default export. *)
Definition ImageModules := list (string * string).

(** [key.includes(theme)]. *)
Fixpoint includes (s sub : string) : bool :=
  if String.prefix sub s then true
  else match s with
       | EmptyString => false
       | String _ rest => includes rest sub
       end.

(** [urlParams.get('theme') ?? '/']. *)
Definition theme (urlParams : Page.URLSearchParams) : string :=
  match Page.get urlParams "theme" with
  | Some v => v
  | None => "/"
  end.

(** [Object.keys(imageModules).filter((key) => key.includes(theme))]. *)
Definition themeImageModuleKeys (imageModules : ImageModules) (theme : string)
  : list string :=
  List.filter (fun key => includes key theme) (map fst imageModules).

(** [themeImageModuleKeys[Math.floor(Math.random() * length)]], for the
    result [random] of [Math.random()]; [None] is [undefined]. *)
Definition themeImageModuleKey (random : Q) (imageModules : ImageModules)
    (theme : string) : option string :=
  let keys := themeImageModuleKeys imageModules theme in
  keys !! Z.to_nat (Js.Math_floor (random * Js.of_nat (length keys))).

(** [imageModules[key]]. *)
Fixpoint lookupModule (imageModules : ImageModules) (key : string)
  : option string :=
  match imageModules with
  | [] => None
  | (k, v) :: rest => if String.eqb k key then Some v else lookupModule rest key
  end.

(** [imageModules[themeImageModuleKey]]; no key of the glob is
    ["undefined"], so an undefined key finds nothing. *)
Definition image (random : Q) (imageModules : ImageModules) (theme : string)
  : option string :=
  match themeImageModuleKey random imageModules theme with
  | Some key => lookupModule imageModules key
  | None => None
  end.

End Catalog.

(** The number read from decimal digits, most significant first, after
    the digits already read gave [acc]. *)
Fixpoint uintValue (d : Decimal.uint) (acc : Z) : Z :=
  match d with
  | Decimal.Nil => acc
  | Decimal.D0 d => uintValue d (acc * 10 + 0)
  | Decimal.D1 d => uintValue d (acc * 10 + 1)
  | Decimal.D2 d => uintValue d (acc * 10 + 2)
  | Decimal.D3 d => uintValue d (acc * 10 + 3)
  | Decimal.D4 d => uintValue d (acc * 10 + 4)
  | Decimal.D5 d => uintValue d (acc * 10 + 5)
  | Decimal.D6 d => uintValue d (acc * 10 + 6)
  | Decimal.D7 d => uintValue d (acc * 10 + 7)
  | Decimal.D8 d => uintValue d (acc * 10 + 8)
  | Decimal.D9 d => uintValue d (acc * 10 + 9)
  end%Z.

(** The small puzzle with an empty grid, a context at rest, and a small
    catalogue. *)
Definition demoEmptyOptions : JigsawOptions :=
  {| rows := 0;
     cols := 2;
     totalDuration := 2048;
     maxRotation := 45;
     maxWidth := 512;
     maxHeight := 512 |}.

Definition demoEmptyStart : JigsawPuzzle :=
  default (construct demoEmptyOptions demoImage)
          (init demoHost demoEmptyOptions demoImage).


Definition demoModules : Catalog.ImageModules :=
  [ ("/src/lib/assets/cats/1.jpg", "/assets/1.jpg");
    ("/src/lib/assets/dogs/2.jpg", "/assets/2.jpg") ]%string.

(** A host that differs from [h] in the results of [Math.random()] only:
    0 for the first [k] calls, then, for the loop of [setupSolvingOrder]
    over [n] elements, the fraction [pick i / (i + 1)] at loop variable
    [i]. *)
Definition hostPicking (h : Host) (k n : nat) (pick : nat -> nat) : Host :=
  {| Math_random := fun m =>
       if decide (m < k)%nat then 0
       else Js.of_nat (pick (n - 1 - (m - k))%nat)
            / Js.of_nat (n - 1 - (m - k) + 1);
     getContext := getContext h;
     performance_now := performance_now h |}.

(* ===================================================================== *)
(** ** Facts about the embedded numbers *)
(* ===================================================================== *)

Lemma ltb_lt (a b : Q) : Js.ltb a b = true <-> a < b.
Proof.
  unfold Js.ltb. rewrite negb_true_iff, <- not_true_iff_false, Qle_bool_iff.
  split; [apply Qnot_le_lt | apply Qlt_not_le].
Qed.

Lemma ltb_ge (a b : Q) : Js.ltb a b = false <-> b <= a.
Proof.
  unfold Js.ltb. rewrite negb_false_iff. apply Qle_bool_iff.
Qed.

Lemma geb_ge (a b : Q) : Js.geb a b = true <-> b <= a.
Proof. apply Qle_bool_iff. Qed.

Lemma geb_lt (a b : Q) : Js.geb a b = false <-> a < b.
Proof.
  unfold Js.geb. rewrite <- not_true_iff_false, Qle_bool_iff.
  split; [apply Qnot_le_lt | apply Qlt_not_le].
Qed.

Lemma of_nat_nonneg (n : nat) : 0 <= Js.of_nat n.
Proof.
  unfold Js.of_nat. change 0 with (inject_Z 0). rewrite <- Zle_Qle. lia.
Qed.

Lemma of_nat_pos (n : nat) : (0 < n)%nat -> 0 < Js.of_nat n.
Proof.
  intros Hn. unfold Js.of_nat. change 0 with (inject_Z 0).
  rewrite <- Zlt_Qlt. lia.
Qed.

Lemma of_nat_S (n : nat) : Js.of_nat (S n) == Js.of_nat n + 1.
Proof.
  unfold Js.of_nat. rewrite Nat2Z.inj_succ, <- Z.add_1_r, inject_Z_plus.
  reflexivity.
Qed.

Lemma of_nat_le (n m : nat) : (n <= m)%nat -> Js.of_nat n <= Js.of_nat m.
Proof. intros H. unfold Js.of_nat. rewrite <- Zle_Qle. lia. Qed.

(** [Qfloor x] is the one integer [z] with [z <= x < z + 1]. *)
Lemma floor_unique (x : Q) (z : Z) :
  inject_Z z <= x -> x < inject_Z (z + 1) -> Qfloor x = z.
Proof.
  intros Hlo Hhi.
  pose proof (Qfloor_le x) as Hf. pose proof (Qlt_floor x) as Hc.
  assert (inject_Z z < inject_Z (Qfloor x + 1)) as H1 by lra.
  assert (inject_Z (Qfloor x) < inject_Z (z + 1)) as H2 by lra.
  rewrite <- Zlt_Qlt in H1, H2. lia.
Qed.

Lemma floor_sub_Z (x : Q) (n : Z) : Qfloor (x - inject_Z n) = (Qfloor x - n)%Z.
Proof.
  apply floor_unique.
  - pose proof (Qfloor_le x). unfold Z.sub. rewrite inject_Z_plus, inject_Z_opp. lra.
  - pose proof (Qlt_floor x) as H.
    replace (Qfloor x - n + 1)%Z with ((Qfloor x + 1) + - n)%Z by lia.
    rewrite inject_Z_plus, inject_Z_opp. lra.
Qed.

Lemma trunc_nonneg (x : Q) : 0 <= x -> Js.trunc x = Qfloor x.
Proof.
  destruct x as [n d]. unfold Qle, Js.trunc, Qfloor. simpl. intros Hn.
  apply Z.quot_div_nonneg; lia.
Qed.

(* ===================================================================== *)
(** ** Easing *)
(* ===================================================================== *)

Lemma easeInOutCubic_low (t : Q) : t < 1 # 2 -> easeInOutCubic t = 4 * t * t * t.
Proof.
  intros Ht. unfold easeInOutCubic.
  apply ltb_lt in Ht. rewrite Ht. reflexivity.
Qed.

Lemma easeInOutCubic_high (t : Q) :
  1 # 2 <= t ->
  easeInOutCubic t = 1 - (-(2) * t + 2) * (-(2) * t + 2) * (-(2) * t + 2) / 2.
Proof.
  intros Ht. unfold easeInOutCubic.
  apply ltb_ge in Ht. rewrite Ht. reflexivity.
Qed.

Lemma halve (x : Q) : x / 2 == x * (1 # 2).
Proof. field. Qed.

Lemma cube_le (a b : Q) : 0 <= a -> a <= b -> a * a * a <= b * b * b.
Proof.
  intros Ha Hab.
  assert (a * a <= b * b) by nra.
  assert (0 <= a * a) by nra.
  nra.
Qed.

Lemma easeInOutCubic_range (t : Q) :
  0 <= t -> t <= 1 -> 0 <= easeInOutCubic t /\ easeInOutCubic t <= 1.
Proof.
  intros H0 H1.
  destruct (Qlt_le_dec t (1 # 2)) as [Hlt | Hge].
  - rewrite (easeInOutCubic_low t Hlt).
    pose proof (cube_le 0 t ltac:(lra) H0).
    pose proof (cube_le t (1 # 2) H0 ltac:(lra)).
    lra.
  - rewrite (easeInOutCubic_high t Hge).
    set (u := -(2) * t + 2).
    assert (0 <= u) by (unfold u; lra).
    assert (u <= 1) by (unfold u; lra).
    pose proof (cube_le 0 u ltac:(lra) ltac:(lra)).
    pose proof (cube_le u 1 ltac:(lra) ltac:(lra)).
    rewrite halve. lra.
Qed.

Lemma easeInOutCubic_mono (s t : Q) :
  0 <= s -> s <= t -> t <= 1 -> easeInOutCubic s <= easeInOutCubic t.
Proof.
  intros H0 Hst H1.
  destruct (Qlt_le_dec t (1 # 2)) as [Ht | Ht].
  - rewrite (easeInOutCubic_low s), (easeInOutCubic_low t) by lra.
    pose proof (cube_le s t H0 Hst). lra.
  - destruct (Qlt_le_dec s (1 # 2)) as [Hs | Hs].
    + rewrite (easeInOutCubic_low s Hs), (easeInOutCubic_high t Ht).
      pose proof (cube_le s (1 # 2) H0 ltac:(lra)).
      set (u := -(2) * t + 2).
      assert (0 <= u) by (unfold u; lra).
      assert (u <= 1) by (unfold u; lra).
      pose proof (cube_le u 1 ltac:(lra) ltac:(lra)).
      rewrite halve. lra.
    + rewrite (easeInOutCubic_high s Hs), (easeInOutCubic_high t Ht).
      set (u := -(2) * t + 2). set (v := -(2) * s + 2).
      assert (0 <= u) by (unfold u; lra).
      assert (u <= v) by (unfold u, v; lra).
      pose proof (cube_le u v ltac:(lra) ltac:(lra)).
      rewrite !halve. lra.
Qed.

(** C7.  [easeInOutCubic t] is [4 t^3] for [t < 0.5] and
    [1 - (-2 t + 2)^3 / 2] otherwise; on [[0, 1]] its values lie in
    [[0, 1]] and it is monotonic non-decreasing; it maps 0 to 0, 0.5 to
    0.5 and 1 to 1. *)
Theorem easeInOutCubic_spec :
  (forall t, t < 1 # 2 -> easeInOutCubic t == 4 * t ^ 3)
  /\ (forall t, 1 # 2 <= t -> easeInOutCubic t == 1 - (-(2) * t + 2) ^ 3 / 2)
  /\ (forall t, 0 <= t <= 1 -> 0 <= easeInOutCubic t <= 1)
  /\ (forall s t, 0 <= s -> s <= t -> t <= 1 ->
        easeInOutCubic s <= easeInOutCubic t)
  /\ easeInOutCubic 0 == 0
  /\ easeInOutCubic (1 # 2) == 1 # 2
  /\ easeInOutCubic 1 == 1.
Proof.
  repeat split.
  - intros t Ht. rewrite (easeInOutCubic_low t Ht). ring.
  - intros t Ht. rewrite (easeInOutCubic_high t Ht). field.
  - apply easeInOutCubic_range; tauto.
  - apply easeInOutCubic_range; tauto.
  - apply easeInOutCubic_mono.
Qed.

(* ===================================================================== *)
(** ** The state built by [init] *)
(* ===================================================================== *)

(** What each step of [init] leaves alone. *)
Lemma startAnimation_fields (h : Host) (s : JigsawPuzzle) :
  options (startAnimation h s) = options s
  /\ image (startAnimation h s) = image s
  /\ canvasWidth (startAnimation h s) = canvasWidth s
  /\ canvasHeight (startAnimation h s) = canvasHeight s
  /\ ctx (startAnimation h s) = ctx s
  /\ pieces (startAnimation h s) = pieces s
  /\ solvingOrder (startAnimation h s) = solvingOrder s
  /\ currentSolvingIndex (startAnimation h s) = currentSolvingIndex s
  /\ pieceMoveDuration (startAnimation h s) = pieceMoveDuration s
  /\ scaleFactor (startAnimation h s) = scaleFactor s.
Proof. repeat split. Qed.

Lemma setupSolvingOrder_fields (h : Host) (s : JigsawPuzzle) :
  options (setupSolvingOrder h s) = options s
  /\ image (setupSolvingOrder h s) = image s
  /\ canvasWidth (setupSolvingOrder h s) = canvasWidth s
  /\ canvasHeight (setupSolvingOrder h s) = canvasHeight s
  /\ ctx (setupSolvingOrder h s) = ctx s
  /\ pieces (setupSolvingOrder h s) = pieces s
  /\ currentSolvingIndex (setupSolvingOrder h s) = currentSolvingIndex s
  /\ scaleFactor (setupSolvingOrder h s) = scaleFactor s
  /\ frameQueue (setupSolvingOrder h s) = frameQueue s
  /\ lastHandle (setupSolvingOrder h s) = lastHandle s
  /\ animationFrameId (setupSolvingOrder h s) = animationFrameId s.
Proof. repeat split. Qed.

Lemma shufflePieces_fields (h : Host) (s : JigsawPuzzle) :
  options (shufflePieces h s) = options s
  /\ image (shufflePieces h s) = image s
  /\ canvasWidth (shufflePieces h s) = canvasWidth s
  /\ canvasHeight (shufflePieces h s) = canvasHeight s
  /\ ctx (shufflePieces h s) = ctx s
  /\ currentSolvingIndex (shufflePieces h s) = currentSolvingIndex s
  /\ scaleFactor (shufflePieces h s) = scaleFactor s
  /\ frameQueue (shufflePieces h s) = frameQueue s
  /\ lastHandle (shufflePieces h s) = lastHandle s
  /\ animationFrameId (shufflePieces h s) = animationFrameId s.
Proof. repeat split. Qed.

Lemma createPuzzlePieces_fields (h : Host) (s : JigsawPuzzle) :
  options (createPuzzlePieces h s) = options s
  /\ image (createPuzzlePieces h s) = image s
  /\ canvasWidth (createPuzzlePieces h s) = canvasWidth s
  /\ canvasHeight (createPuzzlePieces h s) = canvasHeight s
  /\ ctx (createPuzzlePieces h s) = ctx s
  /\ currentSolvingIndex (createPuzzlePieces h s) = currentSolvingIndex s
  /\ scaleFactor (createPuzzlePieces h s) = scaleFactor s
  /\ randomCalls (createPuzzlePieces h s) = randomCalls s
  /\ frameQueue (createPuzzlePieces h s) = frameQueue s
  /\ lastHandle (createPuzzlePieces h s) = lastHandle s
  /\ animationFrameId (createPuzzlePieces h s) = animationFrameId s.
Proof. repeat split. Qed.

Section Init.

Variables (h : Host) (o : JigsawOptions) (img : HTMLImageElement).
Variable s : JigsawPuzzle.
Hypothesis Hinit : init h o img = Some s.

Let sf := scaleFactorOf (maxWidth o) (maxHeight o)
                        (image_width img) (image_height img).
Let sliced := slicePieces h (rows o) (cols o)
                          (image_width img) (image_height img) sf.

Let cw := Js.canvasDimension 300 (image_width img * sf).
Let ch := Js.canvasDimension 150 (image_height img * sf).

(** The state handed from [setupCanvas] to [createPuzzlePieces]. *)
Let s1 : JigsawPuzzle :=
  set_ctx []
    (set_canvasHeight ch
       (set_canvasWidth cw
          (set_scaleFactor sf (construct o img)))).

Lemma init_steps :
  getContext h None = true
  /\ s = startAnimation h (setupSolvingOrder h (shufflePieces h
           (createPuzzlePieces h s1))).
Proof.
  unfold init, initSteps, setupCanvas in Hinit.
  destruct (getContext h None); [| discriminate].
  split; [reflexivity |].
  injection Hinit as <-. reflexivity.
Qed.

Lemma init_options : options s = o.
Proof.
  rewrite (proj2 init_steps).
  rewrite (proj1 (startAnimation_fields _ _)).
  rewrite (proj1 (setupSolvingOrder_fields _ _)). reflexivity.
Qed.

Lemma init_scaleFactor : scaleFactor s = sf.
Proof.
  rewrite (proj2 init_steps). reflexivity.
Qed.

Lemma init_canvas : canvasWidth s = cw /\ canvasHeight s = ch.
Proof.
  rewrite (proj2 init_steps). split; reflexivity.
Qed.

Lemma init_pieces : pieces s = scatterAll h cw ch (maxRotation o) 0 sliced.
Proof.
  rewrite (proj2 init_steps). reflexivity.
Qed.

Lemma init_solvingOrder :
  solvingOrder s =
  shuffleOrder h (3 * length sliced) (length (pieces s) - 1)
               (indexArray (length (pieces s))).
Proof.
  rewrite init_pieces. rewrite (proj2 init_steps).
  unfold startAnimation, setupSolvingOrder.
  cbn [solvingOrder requestAnimationFrame set_animationFrameId
       set_lastHandle set_frameQueue set_animationStartTime
       set_pieceMoveDuration set_randomCalls set_solvingOrder].
  unfold indexArray at 2. rewrite length_fmap, length_seq.
  reflexivity.
Qed.

Lemma init_pieceMoveDuration :
  pieceMoveDuration s = totalDuration o / Js.of_nat (length (pieces s)).
Proof.
  rewrite init_pieces. rewrite (proj2 init_steps). reflexivity.
Qed.

Lemma init_animation :
  currentSolvingIndex s = 0%nat
  /\ animationStartTime s = performance_now h
  /\ animationFrameId s = Some 1%nat
  /\ frameQueue s = [1%nat]
  /\ ctx s = [].
Proof.
  rewrite (proj2 init_steps). repeat split; reflexivity.
Qed.

End Init.

(* ===================================================================== *)
(** ** Image scaler *)
(* ===================================================================== *)

Lemma Math_min_least (a b c : Q) :
  Js.Math_min a b c <= a /\ Js.Math_min a b c <= b /\ Js.Math_min a b c <= c.
Proof.
  unfold Js.Math_min.
  pose proof (Q.le_min_l (Qmin a b) c). pose proof (Q.le_min_r (Qmin a b) c).
  pose proof (Q.le_min_l a b). pose proof (Q.le_min_r a b).
  repeat split; lra.
Qed.

Lemma Math_min_attained (a b c : Q) :
  Js.Math_min a b c == a \/ Js.Math_min a b c == b \/ Js.Math_min a b c == c.
Proof.
  unfold Js.Math_min.
  destruct (Q.min_dec (Qmin a b) c) as [H | H]; [| right; right; exact H].
  destruct (Q.min_dec a b) as [H' | H']; [left | right; left];
    rewrite H; exact H'.
Qed.


Lemma trunc_floor_nonneg (x : Q) : 0 <= x -> (0 <= Js.trunc x)%Z.
Proof.
  intros Hx. rewrite (trunc_nonneg x Hx).
  change 0%Z with (Qfloor 0). apply Qfloor_resp_le, Hx.
Qed.


Lemma canvasDimension_floor (default : Z) (x : Q) :
  0 <= x -> x < 2147483648 ->
  Js.canvasDimension default x = inject_Z (Qfloor x).
Proof.
  intros Hx Hlt. unfold Js.canvasDimension. cbv zeta.
  pose proof (trunc_floor_nonneg x Hx) as Ht.
  rewrite (trunc_nonneg x Hx) in *.
  assert (Qfloor x < 2147483648)%Z as Hb.
  { pose proof (Qfloor_le x) as Hf.
    assert (inject_Z (Qfloor x) < inject_Z 2147483648) as H by
      (change (inject_Z 2147483648) with 2147483648; lra).
    rewrite <- Zlt_Qlt in H. exact H. }
  rewrite Z.mod_small by lia.
  destruct (Z.leb_spec (Qfloor x) 2147483647); [reflexivity | lia].
Qed.




(* ===================================================================== *)
(** ** Countdown formatter *)
(* ===================================================================== *)

Lemma timerRemaining_nonneg (total e : Q) : 0 <= timerRemaining total e.
Proof. apply Q.le_max_l. Qed.

Lemma timerRemaining_antitone (total e1 e2 : Q) :
  e1 <= e2 -> timerRemaining total e2 <= timerRemaining total e1.
Proof.
  intros H. unfold timerRemaining, Js.Math_max.
  apply Q.max_le_compat_l. lra.
Qed.

Lemma timerRemaining_zero (total e : Q) :
  total <= e -> timerRemaining total e == 0.
Proof.
  intros H. unfold timerRemaining, Js.Math_max. apply Q.max_l. lra.
Qed.

Lemma rem_nonneg (r : Q) :
  0 <= r -> Js.rem r 60000 == r - 60000 * inject_Z (Qfloor (r / 60000)).
Proof.
  intros Hr. unfold Js.rem. rewrite trunc_nonneg; [reflexivity |].
  apply Qle_shift_div_l; lra.
Qed.

Lemma minutes_seconds (r : Q) :
  0 <= r ->
  (0 <= timerMinutes r)%Z
  /\ (0 <= timerSeconds r <= 59)%Z
  /\ (60 * timerMinutes r + timerSeconds r)%Z = Qfloor (r / 1000).
Proof.
  intros Hr. unfold timerMinutes, timerSeconds, Js.Math_floor.
  set (m := Qfloor (r / 60000)).
  assert (Qfloor (Js.rem r 60000 / 1000) = (Qfloor (r / 1000) - 60 * m)%Z) as Es.
  { rewrite <- floor_sub_Z. apply Qfloor_comp.
    rewrite (rem_nonneg r Hr). fold m.
    rewrite inject_Z_mult. change (inject_Z 60) with 60. field. }
  rewrite Es.
  pose proof (Qfloor_le (r / 60000)) as Hlo.
  pose proof (Qlt_floor (r / 60000)) as Hhi. fold m in Hlo, Hhi.
  rewrite inject_Z_plus in Hhi. change (inject_Z 1) with 1 in Hhi.
  assert (r / 60000 == r * (1 # 60000)) as E6 by field.
  assert (r / 1000 == r * (1 # 1000)) as E1 by field.
  rewrite E6 in Hlo, Hhi.
  assert (0 <= m)%Z as Hm.
  { change 0%Z with (Qfloor (inject_Z 0)). apply Qfloor_resp_le.
    change (inject_Z 0) with 0. rewrite E6. lra. }
  assert (60 * m <= Qfloor (r / 1000))%Z as H1.
  { rewrite <- (Qfloor_Z (60 * m)). apply Qfloor_resp_le.
    rewrite inject_Z_mult, E1. change (inject_Z 60) with 60. lra. }
  assert (Qfloor (r / 1000) < 60 * m + 60)%Z as H2.
  { rewrite Zlt_Qlt.
    assert (inject_Z (Qfloor (r / 1000)) <= r * (1 # 1000)) as H
      by (rewrite <- E1; apply Qfloor_le).
    rewrite inject_Z_plus, inject_Z_mult.
    change (inject_Z 60) with 60. lra. }
  lia.
Qed.

Lemma pad_two_digits (z : Z) :
  (0 <= z <= 59)%Z ->
  Js.padStart 2 "0"%char (Js.toString z)
  = String (digit (z / 10)) (String (digit (z mod 10)) EmptyString).
Proof.
  intros Hz. rewrite <- (Z2Nat.id z) by lia.
  assert (Z.to_nat z < 60)%nat as Hn by lia.
  generalize dependent (Z.to_nat z). clear Hz. intros n Hn.
  do 60 (destruct n as [| n]; [vm_compute; reflexivity |]).
  lia.
Qed.

Lemma shownSeconds_floor (total e : Q) :
  shownSeconds total e = Qfloor (timerRemaining total e / 1000).
Proof.
  unfold shownSeconds. cbv zeta.
  apply (minutes_seconds _ (timerRemaining_nonneg total e)).
Qed.

Lemma formatRemaining_digits (r : Q) :
  0 <= r ->
  formatRemaining r
  = (Js.toString (timerMinutes r) ++
     String ":" (String (digit (timerSeconds r / 10))
                (String (digit (timerSeconds r mod 10)) EmptyString)))%string.
Proof.
  intros Hr. unfold formatRemaining.
  rewrite pad_two_digits by apply (minutes_seconds r Hr).
  reflexivity.
Qed.

Lemma formatRemaining_zero (r : Q) : r == 0 -> formatRemaining r = "0:00"%string.
Proof.
  intros E.
  assert (0 <= r) as Hr by (rewrite E; lra).
  destruct (minutes_seconds r Hr) as (Hm & Hs & Hsum).
  assert (Qfloor (r / 1000) = 0%Z) as Hz.
  { rewrite (Qfloor_comp (r / 1000) (inject_Z 0)); [apply Qfloor_Z |].
    rewrite E. reflexivity. }
  assert (timerMinutes r = 0%Z) as Em by lia.
  assert (timerSeconds r = 0%Z) as Es by lia.
  unfold formatRemaining. rewrite Em, Es. reflexivity.
Qed.

(** C9.  [updateTimer(elapsed)] writes the text computed from
    [remaining = max(0, totalDuration - elapsed)]: [floor(remaining / 60000)]
    minutes, a colon, and [floor((remaining mod 60000) / 1000)] seconds as
    two digits.  The time shown does not increase when [elapsed] increases,
    and it is ["0:00"] from [elapsed = totalDuration] on; 125000 ms read
    ["2:05"], 0 ms ["0:00"] and 59999 ms ["0:59"]. *)
Theorem updateTimer_text (s : JigsawPuzzle) :
  let total := totalDuration (options s) in
  (forall elapsed,
     let remaining := timerRemaining total elapsed in
     let minutes := Qfloor (remaining / 60000) in
     let seconds :=
       Qfloor ((remaining - 60000 * inject_Z (Qfloor (remaining / 60000)))
               / 1000) in
     remaining = Qmax 0 (total - elapsed)
     /\ timerMinutes remaining = minutes
     /\ timerSeconds remaining = seconds
     /\ (0 <= minutes)%Z /\ (0 <= seconds <= 59)%Z
     /\ timerText (updateTimer elapsed s)
        = (Js.toString minutes ++
           String ":" (String (digit (seconds / 10))
                      (String (digit (seconds mod 10)) EmptyString)))%string)
  /\ (forall e1 e2, e1 <= e2 ->
        (shownSeconds total e2 <= shownSeconds total e1)%Z)
  /\ (forall elapsed, (0 <= shownSeconds total elapsed)%Z)
  /\ (forall elapsed, total <= elapsed ->
        timerText (updateTimer elapsed s) = "0:00"%string)
  /\ formatRemaining 125000 = "2:05"%string
  /\ formatRemaining 0 = "0:00"%string
  /\ formatRemaining 59999 = "0:59"%string.
Proof.
  intros total. split; [| split; [| split; [| split]]].
  - intros elapsed remaining minutes seconds.
    pose proof (timerRemaining_nonneg total elapsed) as Hr.
    fold remaining in Hr.
    destruct (minutes_seconds remaining Hr) as (Hm & Hs & _).
    assert (timerSeconds remaining = seconds) as Es.
    { unfold timerSeconds, seconds, Js.Math_floor. apply Qfloor_comp.
      rewrite (rem_nonneg remaining Hr). reflexivity. }
    split; [reflexivity |]. split; [reflexivity |]. split; [exact Es |].
    split; [exact Hm |]. split; [rewrite <- Es; exact Hs |].
    cbn [timerText updateTimer set_timerText]. unfold timerTextAt.
    fold total. fold remaining.
    rewrite (formatRemaining_digits remaining Hr), Es. reflexivity.
  - intros e1 e2 H. rewrite !shownSeconds_floor. apply Qfloor_resp_le.
    pose proof (timerRemaining_antitone total e1 e2 H) as Hle.
    apply Qmult_le_compat_r; [exact Hle |]. discriminate.
  - intros elapsed. rewrite shownSeconds_floor.
    change 0%Z with (Qfloor (inject_Z 0)). apply Qfloor_resp_le.
    pose proof (timerRemaining_nonneg total elapsed).
    apply Qle_shift_div_l; [reflexivity |]. change (inject_Z 0) with 0. lra.
  - intros elapsed H. cbn [timerText updateTimer set_timerText].
    apply formatRemaining_zero, timerRemaining_zero. exact H.
  - repeat split; vm_compute; reflexivity.
Qed.

(* ===================================================================== *)
(** ** Piece slicer *)
(* ===================================================================== *)

Lemma flat_map_uniform_length {A B} (f : A -> list B) (n : nat) (l : list A) :
  Forall (fun a => length (f a) = n) l ->
  length (flat_map f l) = (length l * n)%nat.
Proof.
  induction 1 as [| a l Ha _ IH]; [reflexivity |].
  simpl. rewrite length_app, Ha, IH. reflexivity.
Qed.

Lemma flat_map_uniform_lookup {A B} (f : A -> list B) (n : nat) (l : list A) :
  Forall (fun a => length (f a) = n) l ->
  forall i j, (j < n)%nat ->
    flat_map f l !! (i * n + j)%nat = l !! i ≫= (fun a => f a !! j).
Proof.
  induction 1 as [| a l Ha _ IH]; intros i j Hj.
  - simpl. rewrite lookup_nil. reflexivity.
  - destruct i as [| i]; simpl.
    + apply lookup_app_l. lia.
    + rewrite lookup_app_r by lia.
      replace (n + i * n + j - length (f a))%nat with (i * n + j)%nat by lia.
      apply IH. exact Hj.
Qed.

Lemma flat_map_guarded {A B} (g : A -> bool) (f : A -> B) (l : list A) :
  Forall (fun a => g a = true) l ->
  flat_map (fun a => if g a then [f a] else []) l = map f l.
Proof.
  induction 1 as [| a l Ha _ IH]; [reflexivity |].
  simpl. rewrite Ha, IH. reflexivity.
Qed.

Lemma flat_map_agree {A B} (f g : A -> list B) (l : list A) :
  Forall (fun a => f a = g a) l -> flat_map f l = flat_map g l.
Proof.
  induction 1 as [| a l Ha _ IH]; [reflexivity |].
  simpl. rewrite Ha, IH. reflexivity.
Qed.

Section Slicing.

Variables (h : Host) (rows cols : nat) (imageWidth imageHeight sf : Q).
Hypothesis Hctx : contextsAvailable h rows cols.

Let opw := imageWidth / Js.of_nat cols.
Let oph := imageHeight / Js.of_nat rows.
Let cell (row col : nat) : JigsawPiece :=
  newPiece opw oph (opw * sf) (oph * sf) row col.

Lemma slicePieces_rows :
  slicePieces h rows cols imageWidth imageHeight sf
  = flat_map (fun row => map (cell row) (seq 0 cols)) (seq 0 rows).
Proof.
  unfold slicePieces. cbv zeta. fold opw oph.
  apply flat_map_agree, Forall_forall. intros row Hrow.
  apply list_elem_of_In, in_seq in Hrow.
  apply (flat_map_guarded (fun col => getContext h (Some (row, col)))
                          (cell row)).
  apply Forall_forall. intros col Hcol.
  apply list_elem_of_In, in_seq in Hcol.
  apply Hctx; lia.
Qed.

Lemma slicePieces_length :
  length (slicePieces h rows cols imageWidth imageHeight sf)
  = (rows * cols)%nat.
Proof.
  rewrite slicePieces_rows.
  rewrite (flat_map_uniform_length _ cols).
  - rewrite length_seq. reflexivity.
  - apply Forall_forall. intros row _. rewrite length_map, length_seq.
    reflexivity.
Qed.

Lemma slicePieces_lookup (row col : nat) :
  (row < rows)%nat -> (col < cols)%nat ->
  slicePieces h rows cols imageWidth imageHeight sf !! (row * cols + col)%nat
  = Some (cell row col).
Proof.
  intros Hrow Hcol. rewrite slicePieces_rows.
  rewrite (flat_map_uniform_lookup _ cols) by
    (try exact Hcol; apply Forall_forall; intros r _;
     rewrite length_map, length_seq; reflexivity).
  rewrite lookup_seq_lt by exact Hrow. simpl.
  rewrite list_lookup_fmap, lookup_seq_lt by exact Hcol. reflexivity.
Qed.

End Slicing.

Lemma scatterAll_length (h : Host) (cw ch mr : Q) (k : nat)
    (ps : list JigsawPiece) :
  length (scatterAll h cw ch mr k ps) = length ps.
Proof.
  revert k. induction ps as [| p ps IH]; intros k; simpl; [| rewrite IH];
    reflexivity.
Qed.

Lemma scatterAll_lookup (h : Host) (cw ch mr : Q) (k : nat)
    (ps : list JigsawPiece) (i : nat) :
  scatterAll h cw ch mr k ps !! i
  = scatter h cw ch mr (k + 3 * i) <$> ps !! i.
Proof.
  revert k i. induction ps as [| p ps IH]; intros k i; [reflexivity |].
  destruct i as [| i]; simpl.
  - rewrite Nat.add_0_r. reflexivity.
  - rewrite IH. do 2 f_equal. lia.
Qed.

Section Tiling.

Variables (h : Host) (o : JigsawOptions) (img : HTMLImageElement).
Variable s : JigsawPuzzle.
Hypothesis Hrows : (1 <= rows o)%nat.
Hypothesis Hcols : (1 <= cols o)%nat.
Hypothesis Hctx : contextsAvailable h (rows o) (cols o).
Hypothesis Hinit : init h o img = Some s.

Let sf := scaleFactorOf (maxWidth o) (maxHeight o)
                        (image_width img) (image_height img).
Let opw := image_width img / Js.of_nat (cols o).
Let oph := image_height img / Js.of_nat (rows o).
Let w := opw * sf.
Let ht := oph * sf.

Lemma init_pieces_length : length (pieces s) = (rows o * cols o)%nat.
Proof using All.
  rewrite (init_pieces _ _ _ _ Hinit), scatterAll_length.
  apply slicePieces_length, Hctx.
Qed.

Lemma init_piece_at (row col : nat) :
  (row < rows o)%nat -> (col < cols o)%nat ->
  exists piece,
    pieces s !! (row * cols o + col)%nat = Some piece
    /\ canvas_cell (canvas piece) = (row, col)
    /\ width piece = w /\ height piece = ht
    /\ originalX piece = Js.of_nat col * w
    /\ originalY piece = Js.of_nat row * ht
    /\ solved piece = false.
Proof using All.
  intros Hrow Hcol.
  rewrite (init_pieces _ _ _ _ Hinit), scatterAll_lookup.
  rewrite (slicePieces_lookup _ _ _ _ _ _ Hctx row col Hrow Hcol).
  eexists. split; [reflexivity |]. repeat split.
Qed.

Lemma init_piece_cell (j : nat) (piece : JigsawPiece) :
  pieces s !! j = Some piece ->
  exists row col,
    (row < rows o)%nat /\ (col < cols o)%nat /\ j = (row * cols o + col)%nat
    /\ canvas_cell (canvas piece) = (row, col)
    /\ width piece = w /\ height piece = ht
    /\ originalX piece = Js.of_nat col * w
    /\ originalY piece = Js.of_nat row * ht
    /\ solved piece = false.
Proof using All.
  intros Hj.
  pose proof (lookup_lt_Some _ _ _ Hj) as Hlt.
  rewrite init_pieces_length in Hlt.
  exists (j / cols o)%nat, (j mod cols o)%nat.
  assert (j / cols o < rows o)%nat as Hrow
    by (apply Nat.Div0.div_lt_upper_bound; lia).
  assert (j mod cols o < cols o)%nat as Hcol by (apply Nat.mod_upper_bound; lia).
  assert (j = (j / cols o * cols o + j mod cols o)%nat) as Ej
    by (rewrite Nat.mul_comm; apply Nat.div_mod_eq).
  split; [exact Hrow |]. split; [exact Hcol |]. split; [exact Ej |].
  destruct (init_piece_at _ _ Hrow Hcol) as (q & Hq & Hrest).
  rewrite <- Ej, Hj in Hq. injection Hq as <-. exact Hrest.
Qed.

End Tiling.

(** C8, as the code has it.  For [rows >= 1] and [cols >= 1], when every
    piece canvas yields a drawing context, slicing leaves [rows * cols]
    pieces in row-major order: the piece of cell [(row, col)] is at index
    [row * cols + col], and every index is that of one cell.  All pieces
    have the size
    [(image.width / cols * scaleFactor, image.height / rows * scaleFactor)],
    and the home position of the piece of cell [(row, col)] is
    [(col * pieceWidth, row * pieceHeight)]. *)
Theorem slicing_tiles (h : Host) (o : JigsawOptions) (img : HTMLImageElement)
    (s : JigsawPuzzle) :
  (1 <= rows o)%nat -> (1 <= cols o)%nat ->
  contextsAvailable h (rows o) (cols o) ->
  init h o img = Some s ->
  let pieceWidth := image_width img / Js.of_nat (cols o) * scaleFactor s in
  let pieceHeight := image_height img / Js.of_nat (rows o) * scaleFactor s in
  length (pieces s) = (rows o * cols o)%nat
  /\ (forall row col, (row < rows o)%nat -> (col < cols o)%nat ->
        exists piece,
          pieces s !! (row * cols o + col)%nat = Some piece
          /\ canvas_cell (canvas piece) = (row, col)
          /\ width piece = pieceWidth /\ height piece = pieceHeight
          /\ originalX piece = Js.of_nat col * pieceWidth
          /\ originalY piece = Js.of_nat row * pieceHeight)
  /\ (forall i piece, pieces s !! i = Some piece ->
        exists row col,
          (row < rows o)%nat /\ (col < cols o)%nat
          /\ i = (row * cols o + col)%nat
          /\ canvas_cell (canvas piece) = (row, col)
          /\ width piece = pieceWidth /\ height piece = pieceHeight
          /\ originalX piece = Js.of_nat col * pieceWidth
          /\ originalY piece = Js.of_nat row * pieceHeight).
Proof.
  intros Hrows Hcols Hctx Hinit pieceWidth pieceHeight.
  unfold pieceWidth, pieceHeight.
  rewrite (init_scaleFactor _ _ _ _ Hinit).
  split; [apply (init_pieces_length h o img s Hrows Hcols Hctx Hinit) |].
  split.
  - intros row col Hrow Hcol.
    destruct (init_piece_at h o img s Hrows Hcols Hctx Hinit row col Hrow Hcol)
      as (piece & Hp & Hcell & Hw & Hh & Hx & Hy & _).
    exists piece. repeat split; assumption.
  - intros i piece Hp.
    destruct (init_piece_cell h o img s Hrows Hcols Hctx Hinit i piece Hp)
      as (row & col & Hrow & Hcol & Hi & Hcell & Hw & Hh & Hx & Hy & _).
    exists row, col. repeat split; assumption.
Qed.

(** The claim C8 as the specification words it fails in three ways.  A
    cell whose canvas yields no context is skipped: on such a host the grid
    of 1 by 2 is left with one piece.  In binary64 the home rectangles do
    not tile: for an image of 1920 by 1080 scaled by 0.9 and cut 10 by 10,
    the right edge of column 5, [5 * pieceWidth + pieceWidth], is below the
    left edge of column 6, [6 * pieceWidth], so that this point of the
    scaled image lies in no column; and the top edge of row 7 lies within
    row 6 as well.  And the width of a piece, [image.width / cols *
    scaleFactor], is not the width of the scaled image divided by [cols]:
    for the same image scaled by 0.8 the two differ. *)
Lemma slicing_not_tiling :
  (init demoHostNoContext demoOptions demoImage = Some demoNoContextStart
   /\ (rows demoOptions * cols demoOptions)%nat = 2%nat
   /\ length (pieces demoNoContextStart) = 1%nat)
  /\ (let scaleFactor := Binary64.scaleFactorOf 1728 972 1920 1080 in
      let pieceWidth := Binary64.scaledPieceSize 1920 10 scaleFactor in
      let pieceHeight := Binary64.scaledPieceSize 1080 10 scaleFactor in
      let x := (Binary64.original 5 pieceWidth + pieceWidth)%float in
      let y := Binary64.original 7 pieceHeight in
      (PrimFloat.leb 0 x = true
       /\ PrimFloat.ltb x (Binary64.scaledSize 1920 scaleFactor) = true
       /\ forallb (fun col => negb (Binary64.covers col pieceWidth x))
                  (seq 0 10) = true)
      /\ (Binary64.covers 6 pieceHeight y = true
          /\ Binary64.covers 7 pieceHeight y = true))
  /\ (let scaleFactor := Binary64.scaleFactorOf 1536 972 1920 1080 in
      PrimFloat.eqb (Binary64.scaledPieceSize 1920 10 scaleFactor)
                    (Binary64.scaledSize 1920 scaleFactor / 10)%float
      = false).
Proof.
  cbv zeta. repeat split; vm_compute; reflexivity.
Qed.

(* ===================================================================== *)
(** ** Solving scheduler *)
(* ===================================================================== *)

Lemma floor_pick (r : Q) (i : nat) :
  0 <= r -> r < 1 ->
  (Z.to_nat (Js.Math_floor (r * Js.of_nat (i + 1))) <= i)%nat.
Proof.
  intros H0 H1. unfold Js.Math_floor.
  pose proof (Qfloor_le (r * Js.of_nat (i + 1))) as Hf.
  pose proof (of_nat_pos (i + 1) ltac:(lia)) as Hpos.
  assert (r * Js.of_nat (i + 1) < 1 * Js.of_nat (i + 1)) as Hm
    by (apply Qmult_lt_compat_r; assumption).
  assert (inject_Z (Qfloor (r * Js.of_nat (i + 1))) < Js.of_nat (i + 1)) as Hlt.
  { generalize dependent (Js.of_nat (i + 1)). intros M Hf _ Hm.
    generalize dependent (Qfloor (r * M)). intros z Hf. lra. }
  unfold Js.of_nat in *. rewrite <- Zlt_Qlt in Hlt. lia.
Qed.

Lemma picked_le (h : Host) (k n i : nat) :
  randomInRange h -> (picked h k n i <= i)%nat.
Proof.
  intros Hr. apply floor_pick; apply Hr.
Qed.

Lemma exchange_length (p : list nat) (i j : nat) :
  length (exchange p i j) = length p.
Proof.
  unfold exchange. destruct (p !! i), (p !! j); try reflexivity.
  rewrite !length_insert. reflexivity.
Qed.

Lemma exchange_Permutation (p : list nat) (i j : nat) : exchange p i j ≡ₚ p.
Proof.
  unfold exchange.
  destruct (p !! i) as [x |] eqn:Hi; [| reflexivity].
  destruct (p !! j) as [y |] eqn:Hj; [| reflexivity].
  apply Permutation_insert_swap; assumption.
Qed.

Lemma fisherYates_Permutation (pick : nat -> nat) (i : nat) (p : list nat) :
  fisherYates pick i p ≡ₚ p.
Proof.
  revert p. induction i as [| i IH]; intros p; simpl; [reflexivity |].
  rewrite IH. apply exchange_Permutation.
Qed.

Lemma fisherYates_ext (pick pick' : nat -> nat) (i : nat) (p : list nat) :
  (forall i', (1 <= i' <= i)%nat -> pick i' = pick' i') ->
  fisherYates pick i p = fisherYates pick' i p.
Proof.
  revert p. induction i as [| i IH]; intros p Hp; simpl; [reflexivity |].
  rewrite (Hp (S i)) by lia. apply IH. intros i' Hi'. apply Hp. lia.
Qed.

Lemma arraySet_in_range (a : list (option nat)) (i : nat) (v : option nat) :
  (i < length a)%nat -> arraySet a i v = <[i:=v]> a.
Proof. intros Hi. unfold arraySet. apply decide_True. exact Hi. Qed.

Lemma arrayGet_fmap (p : list nat) (i : nat) : arrayGet (Some <$> p) i = p !! i.
Proof.
  unfold arrayGet. rewrite list_lookup_fmap. destruct (p !! i); reflexivity.
Qed.

(** On an array without holes a swap within bounds is an exchange. *)
Lemma swapElements_exchange (p : list nat) (i j : nat) :
  (i < length p)%nat -> (j < length p)%nat ->
  swapElements (Some <$> p) i j = Some <$> exchange p i j.
Proof.
  intros Hi Hj. unfold swapElements, exchange.
  destruct (lookup_lt_is_Some_2 p i Hi) as [x Hx].
  destruct (lookup_lt_is_Some_2 p j Hj) as [y Hy].
  rewrite !arrayGet_fmap, Hx, Hy.
  rewrite (arraySet_in_range (Some <$> p)) by (rewrite length_fmap; exact Hi).
  rewrite arraySet_in_range by (rewrite length_insert, length_fmap; exact Hj).
  rewrite !list_fmap_insert. reflexivity.
Qed.

Lemma shuffleOrder_S (h : Host) (k i : nat) (a : list (option nat)) :
  shuffleOrder h k (S i) a
  = shuffleOrder h (S k) i (swapElements a (S i) (picked h k (S (S i)) (S i))).
Proof.
  cbn [shuffleOrder]. unfold picked.
  replace (k + (S (S i) - 1 - S i))%nat with k by lia. reflexivity.
Qed.

Lemma shuffleOrder_fisherYates (h : Host) (i k : nat) (p : list nat) :
  randomInRange h -> (i < length p)%nat ->
  shuffleOrder h k i (Some <$> p)
  = Some <$> fisherYates (picked h k (S i)) i p.
Proof.
  intros Hr. revert k p. induction i as [| i IH]; intros k p Hi;
    [reflexivity |].
  assert (picked h k (S (S i)) (S i) <= S i)%nat as Hj
    by (apply picked_le, Hr).
  rewrite shuffleOrder_S, swapElements_exchange by lia.
  rewrite IH by (rewrite exchange_length; lia).
  cbn [fisherYates]. f_equal. apply fisherYates_ext. intros i' Hi'.
  unfold picked. do 4 f_equal. lia.
Qed.

(** C6.  For [N >= 1] pieces and any results of [Math.random()] (numbers of
    [[0, 1)]), the solving order built by [init] has no holes and is a
    permutation of [0 .. N-1], each index occurring exactly once.  It is
    the Fisher-Yates shuffle of the index sequence [0 .. N-1] under the
    draws of the scheduler: [3 N] draws having gone to the scatter of the
    pieces, the step for loop variable [i] (from [N - 1] down to 1)
    exchanges the elements at [i] and at
    [j = floor(random * (i + 1))], where [random] is the draw of number
    [3 N + (N - 1 - i)], and [j <= i].  [pieceMoveDuration] is
    [totalDuration / N]. *)
Theorem solvingOrder_permutation (h : Host) (o : JigsawOptions)
    (img : HTMLImageElement) (s : JigsawPuzzle) :
  randomInRange h ->
  init h o img = Some s ->
  (1 <= length (pieces s))%nat ->
  let N := length (pieces s) in
  let pick := fun i : nat =>
    Z.to_nat (Js.Math_floor (Math_random h (3 * N + (N - 1 - i))
                             * Js.of_nat (i + 1))) in
  exists order : list nat,
    solvingOrder s = Some <$> order
    /\ order ≡ₚ seq 0 N
    /\ NoDup order
    /\ (forall i, (i < N)%nat <-> i ∈ order)
    /\ (forall i, (pick i <= i)%nat)
    /\ order = fisherYates pick (N - 1) (seq 0 N)
    /\ (forall i, pick i = picked h (3 * N) N i)
    /\ pieceMoveDuration s = totalDuration o / Js.of_nat N.
Proof.
  intros Hr Hinit HN N pick.
  assert (length (slicePieces h (rows o) (cols o) (image_width img)
                              (image_height img)
                              (scaleFactorOf (maxWidth o) (maxHeight o)
                                 (image_width img) (image_height img)))
          = N) as Hsliced.
  { unfold N. rewrite (init_pieces _ _ _ _ Hinit), scatterAll_length.
    reflexivity. }
  change pick with (picked h (3 * N) N).
  exists (fisherYates (picked h (3 * N) N) (N - 1) (seq 0 N)).
  assert (fisherYates (picked h (3 * N) N) (N - 1) (seq 0 N) ≡ₚ seq 0 N)
    as Hperm by apply fisherYates_Permutation.
  split.
  { rewrite (init_solvingOrder _ _ _ _ Hinit), Hsliced. fold N.
    unfold indexArray.
    rewrite shuffleOrder_fisherYates by (try exact Hr; rewrite length_seq; lia).
    replace (S (N - 1)) with N by lia. reflexivity. }
  split; [exact Hperm |].
  split; [rewrite Hperm; apply NoDup_seq |].
  split.
  { intros i. rewrite Hperm, elem_of_seq. lia. }
  split; [intros i; apply picked_le, Hr |].
  split; [reflexivity |].
  split; [reflexivity |].
  apply (init_pieceMoveDuration _ _ _ _ Hinit).
Qed.

(* ===================================================================== *)
(** ** Animation driver: one frame *)
(* ===================================================================== *)

Lemma sameGeometry_refl (p : JigsawPiece) : sameGeometry p p.
Proof. repeat split. Qed.

Lemma sameGeometry_markSolved (p : JigsawPiece) : sameGeometry p (markSolved p).
Proof. repeat split. Qed.

(** The last [if] of [animate], field by field. *)
Lemma finish_fields (e : Q) (s : JigsawPuzzle) :
  options (finish e s) = options s
  /\ pieces (finish e s) = pieces s
  /\ solvingOrder (finish e s) = solvingOrder s
  /\ currentSolvingIndex (finish e s) = currentSolvingIndex s
  /\ pieceMoveDuration (finish e s) = pieceMoveDuration s
  /\ animationStartTime (finish e s) = animationStartTime s.
Proof.
  unfold finish. destruct (Js.ltb e (totalDuration (options s))).
  - repeat split.
  - destruct (truthy (animationFrameId s)); repeat split.
Qed.

Lemma finish_running (e : Q) (s : JigsawPuzzle) :
  e < totalDuration (options s) ->
  ctx (finish e s) = ctx s
  /\ timerText (finish e s) = timerText s
  /\ frameQueue (finish e s) = frameQueue s ++ [S (lastHandle s)].
Proof.
  intros He. unfold finish. apply ltb_lt in He. rewrite He. repeat split.
Qed.

Lemma finish_done (e : Q) (s : JigsawPuzzle) :
  totalDuration (options s) <= e ->
  ctx (finish e s) = map drawHome (pieces s)
  /\ timerText (finish e s)
     = timerTextAt (totalDuration (options s)) (totalDuration (options s))
  /\ (frameQueue s = [] -> frameQueue (finish e s) = []).
Proof.
  intros He. unfold finish. apply ltb_ge in He. rewrite He.
  destruct (truthy (animationFrameId s)); repeat split;
    cbn; intros ->; reflexivity.
Qed.

(** The block that moves the piece in transit, case by case. *)
Lemma advance_idle (e : Q) (s : JigsawPuzzle) :
  (length (solvingOrder s) <= currentSolvingIndex s)%nat ->
  advance e s = Some s.
Proof.
  intros H. unfold advance. apply decide_False. lia.
Qed.

Lemma advance_active (e : Q) (s : JigsawPuzzle) (idx : nat)
    (piece : JigsawPiece) :
  solvingOrder s !! currentSolvingIndex s = Some (Some idx) ->
  pieces s !! idx = Some piece ->
  advance e s
  = Some (if Js.geb (progressAt s e) 1
          then set_currentSolvingIndex (S (currentSolvingIndex s))
                 (set_pieces (<[idx := markSolved piece]> (pieces s))
                    (issue [drawActive piece (easeInOutCubic (progressAt s e))]
                           s))
          else issue [drawActive piece (easeInOutCubic (progressAt s e))] s).
Proof.
  intros Hidx Hpiece. unfold advance.
  rewrite decide_True by (apply lookup_lt_Some in Hidx; exact Hidx).
  unfold arrayGet. rewrite Hidx, Hpiece.
  destruct (Js.geb (progressAt s e) 1); reflexivity.
Qed.

Lemma painted_fields (e : Q) (rest : list nat) (s : JigsawPuzzle) :
  options (painted e rest s) = options s
  /\ pieces (painted e rest s) = pieces s
  /\ solvingOrder (painted e rest s) = solvingOrder s
  /\ currentSolvingIndex (painted e rest s) = currentSolvingIndex s
  /\ pieceMoveDuration (painted e rest s) = pieceMoveDuration s
  /\ animationStartTime (painted e rest s) = animationStartTime s
  /\ frameQueue (painted e rest s) = rest
  /\ ctx (painted e rest s) = map drawPiece (pieces s)
  /\ timerText (painted e rest s) = timerTextAt (totalDuration (options s)) e.
Proof. repeat split. Qed.

Lemma animate_painted (t : Q) (rest : list nat) (s : JigsawPuzzle) :
  animate t (set_frameQueue rest s)
  = match advance (t - animationStartTime s)
                  (painted (t - animationStartTime s) rest s) with
    | None => None
    | Some s' => Some (finish (t - animationStartTime s) s')
    end.
Proof. reflexivity. Qed.

Lemma order_piece (order : list nat) (ps : list JigsawPiece) (k : nat) :
  order ≡ₚ seq 0 (length ps) -> (k < length order)%nat ->
  exists idx piece, order !! k = Some idx /\ ps !! idx = Some piece.
Proof.
  intros Hperm Hk.
  destruct (lookup_lt_is_Some_2 order k Hk) as [idx Hidx].
  assert (idx ∈ seq 0 (length ps)) as Hin
    by (rewrite <- Hperm; eapply list_elem_of_lookup_2; exact Hidx).
  apply elem_of_seq in Hin.
  destruct (lookup_lt_is_Some_2 ps idx ltac:(lia)) as [piece Hpiece].
  exists idx, piece. split; assumption.
Qed.

(** One frame, from a state that satisfies the invariant. *)
Lemma frame_outcome (h : Host) (o : JigsawOptions) (order : list nat)
    (s s' : JigsawPuzzle) (t : Q) :
  Invariant h o order s -> frame t s s' ->
  let e := t - animationStartTime s in
  (options s' = options s
   /\ solvingOrder s' = solvingOrder s
   /\ pieceMoveDuration s' = pieceMoveDuration s
   /\ animationStartTime s' = animationStartTime s)
  /\ exists active, transit order e s s' active /\ output e s s' active.
Proof.
  intros Hinv [handle rest Hq Hani] e.
  assert (rest = []) as ->.
  { pose proof (inv_queue _ _ _ _ Hinv) as Hlen. rewrite Hq in Hlen.
    destruct rest; [reflexivity | simpl in Hlen; lia]. }
  rewrite animate_painted in Hani. fold e in Hani.
  destruct (painted_fields e [] s)
    as (Po & Pp & Pso & Pcsi & Pd & Pst & Pq & Pctx & Ptxt).
  assert (exists s2 active,
            advance e (painted e [] s) = Some s2
            /\ transit order e s s2 active
            /\ ctx s2 = map drawPiece (pieces s) ++ active
            /\ options s2 = options s
            /\ solvingOrder s2 = solvingOrder s
            /\ pieceMoveDuration s2 = pieceMoveDuration s
            /\ animationStartTime s2 = animationStartTime s
            /\ timerText s2 = timerTextAt (totalDuration (options s)) e
            /\ frameQueue s2 = []
            /\ lastHandle s2 = lastHandle s)
    as (s2 & active & Hadv & Htr & Hctx & Ho & Hso & Hd & Hst & Htxt & Hq2 & Hl).
  { destruct (le_lt_dec (length order) (currentSolvingIndex s)) as [Hge | Hlt].
    - exists (painted e [] s), [].
      split.
      { apply advance_idle. rewrite Pso, Pcsi, (inv_order _ _ _ _ Hinv).
        rewrite length_fmap. exact Hge. }
      split; [left; repeat split; assumption |].
      rewrite app_nil_r. repeat split.
    - destruct (order_piece order (pieces s) _ (inv_perm _ _ _ _ Hinv) Hlt)
        as (idx & piece & Hidx & Hpiece).
      pose proof (inv_solved _ _ _ _ Hinv _ _ _ Hidx Hpiece) as Hsolved.
      rewrite bool_decide_eq_false_2 in Hsolved by lia.
      eexists. exists [drawActive piece (easeInOutCubic (progressAt s e))].
      split.
      { apply (advance_active e (painted e [] s) idx piece).
        - rewrite Pso, Pcsi, (inv_order _ _ _ _ Hinv), list_lookup_fmap, Hidx.
          reflexivity.
        - rewrite Pp. exact Hpiece. }
      change (progressAt (painted e [] s) e) with (progressAt s e).
      destruct (Js.geb (progressAt s e) 1) eqn:Hprog.
      + apply geb_ge in Hprog.
        split.
        { right. exists idx, piece. repeat split; try assumption.
          right. repeat split. exact Hprog. }
        repeat split.
      + apply geb_lt in Hprog.
        split.
        { right. exists idx, piece. repeat split; try assumption.
          left. repeat split. exact Hprog. }
        repeat split. }
  rewrite Hadv in Hani. injection Hani as <-.
  destruct (finish_fields e s2) as (Fo & Fp & Fso & Fcsi & Fd & Fst).
  split.
  { rewrite Fo, Fso, Fd, Fst, Ho, Hso, Hd, Hst. repeat split. }
  exists active. split.
  { unfold transit in *. rewrite Fp, Fcsi. exact Htr. }
  unfold output. cbv zeta.
  destruct (Qlt_le_dec e (totalDuration (options s))) as [He | He].
  - left. rewrite <- Ho in He.
    destruct (finish_running e s2 He) as (Rc & Rt & Rq).
    rewrite Rc, Rt, Rq, Hctx, Htxt, Hq2. split; [rewrite <- Ho; exact He |].
    repeat split. eexists. reflexivity.
  - right. rewrite <- Ho in He.
    destruct (finish_done e s2 He) as (Dc & Dt & Dq).
    rewrite Dc, Dt, (Dq Hq2), Fp, Ho. split; [rewrite <- Ho; exact He |].
    repeat split.
Qed.

(* ===================================================================== *)
(** ** Animation driver: the invariant *)
(* ===================================================================== *)

Lemma slicePieces_unsolved (h : Host) (rows cols : nat) (iw ih sf : Q) :
  Forall (fun piece => solved piece = false) (slicePieces h rows cols iw ih sf).
Proof.
  apply Forall_forall. intros piece Hin. apply list_elem_of_In in Hin.
  unfold slicePieces in Hin. cbv zeta in Hin.
  apply in_flat_map in Hin as (row & _ & Hin).
  apply in_flat_map in Hin as (col & _ & Hin).
  destruct (getContext h (Some (row, col))); [| destruct Hin].
  destruct Hin as [<- | []]. reflexivity.
Qed.

Lemma scatterAll_solved (h : Host) (cw ch mr : Q) (k : nat)
    (ps : list JigsawPiece) (i : nat) (piece : JigsawPiece) :
  scatterAll h cw ch mr k ps !! i = Some piece ->
  exists original, ps !! i = Some original /\ solved piece = solved original.
Proof.
  rewrite scatterAll_lookup. destruct (ps !! i) as [original |]; [| discriminate].
  intros [= <-]. exists original. split; reflexivity.
Qed.

Lemma init_unsolved (h : Host) (o : JigsawOptions) (img : HTMLImageElement)
    (s : JigsawPuzzle) (i : nat) (piece : JigsawPiece) :
  init h o img = Some s -> pieces s !! i = Some piece -> solved piece = false.
Proof.
  intros Hinit Hp. rewrite (init_pieces _ _ _ _ Hinit) in Hp.
  apply scatterAll_solved in Hp as (original & Ho & ->).
  pose proof (slicePieces_unsolved h (rows o) (cols o) (image_width img)
                (image_height img)
                (scaleFactorOf (maxWidth o) (maxHeight o)
                               (image_width img) (image_height img))) as Hall.
  rewrite Forall_lookup in Hall. exact (Hall _ _ Ho).
Qed.

Lemma init_order (h : Host) (o : JigsawOptions) (img : HTMLImageElement)
    (s : JigsawPuzzle) :
  randomInRange h -> init h o img = Some s ->
  exists order,
    solvingOrder s = Some <$> order /\ order ≡ₚ seq 0 (length (pieces s)).
Proof.
  intros Hr Hinit. rewrite (init_solvingOrder _ _ _ _ Hinit).
  destruct (length (pieces s)) as [| n] eqn:HN.
  - exists []. split; reflexivity.
  - eexists. split.
    + unfold indexArray. apply shuffleOrder_fisherYates; [exact Hr |].
      rewrite length_seq. lia.
    + apply fisherYates_Permutation.
Qed.

Lemma init_invariant (h : Host) (o : JigsawOptions) (img : HTMLImageElement)
    (s : JigsawPuzzle) :
  randomInRange h -> init h o img = Some s ->
  exists order, Invariant h o order s.
Proof.
  intros Hr Hinit.
  destruct (init_order h o img s Hr Hinit) as (order & Horder & Hperm).
  destruct (init_animation _ _ _ _ Hinit) as (Hcsi & Hstart & _ & Hq & _).
  exists order. split.
  - apply (init_options _ _ _ _ Hinit).
  - exact Hstart.
  - exact Horder.
  - exact Hperm.
  - rewrite Hcsi. lia.
  - intros k i piece _ Hp. rewrite Hcsi.
    rewrite bool_decide_eq_false_2 by lia.
    apply (init_unsolved h o img s i piece Hinit Hp).
  - apply (init_pieceMoveDuration _ _ _ _ Hinit).
  - rewrite Hq. simpl. lia.
Qed.

Lemma transit_length (order : list nat) (e : Q) (s s' : JigsawPuzzle)
    (active : list DrawCall) :
  transit order e s s' active -> length (pieces s') = length (pieces s).
Proof.
  intros [(_ & _ & -> & _) | (idx & piece & _ & _ & _ & _ & Hcase)];
    [reflexivity |].
  destruct Hcase as [(_ & -> & _) | (_ & -> & _)];
    [reflexivity | apply length_insert].
Qed.

Lemma transit_index (order : list nat) (e : Q) (s s' : JigsawPuzzle)
    (active : list DrawCall) :
  transit order e s s' active ->
  (currentSolvingIndex s <= currentSolvingIndex s' <= S (currentSolvingIndex s))%nat
  /\ ((currentSolvingIndex s < length order)%nat \/
      currentSolvingIndex s' = currentSolvingIndex s).
Proof.
  intros [(_ & _ & _ & ->) | (idx & piece & Hidx & _ & _ & _ & Hcase)].
  - split; [lia | right; reflexivity].
  - apply lookup_lt_Some in Hidx.
    destruct Hcase as [(_ & _ & ->) | (_ & _ & ->)]; split; try lia;
      left; exact Hidx.
Qed.

Lemma frame_invariant (h : Host) (o : JigsawOptions) (order : list nat)
    (s s' : JigsawPuzzle) (t : Q) :
  Invariant h o order s -> frame t s s' -> Invariant h o order s'.
Proof.
  intros Hinv Hframe.
  destruct (frame_outcome h o order s s' t Hinv Hframe)
    as ((Ho & Hso & Hd & Hst) & active & Htr & Hout).
  pose proof (transit_length _ _ _ _ _ Htr) as Hlen.
  pose proof (transit_index _ _ _ _ _ Htr) as [Hidx Hidx'].
  destruct Hinv as [Io Ist Iso Iperm Iidx Isolved Idur Iq].
  split.
  - rewrite Ho. exact Io.
  - rewrite Hst. exact Ist.
  - rewrite Hso. exact Iso.
  - rewrite Hlen. exact Iperm.
  - lia.
  - intros k i piece Hk Hp.
    destruct Htr as [(_ & _ & Epieces & Ecsi)
                    | (idx & active_piece & Hact & Hpiece & _ & _ & Hcase)].
    + rewrite Ecsi. rewrite Epieces in Hp. exact (Isolved k i piece Hk Hp).
    + destruct Hcase as [(_ & Epieces & Ecsi) | (_ & Epieces & Ecsi)].
      * rewrite Ecsi. rewrite Epieces in Hp. exact (Isolved k i piece Hk Hp).
      * rewrite Ecsi. rewrite Epieces in Hp.
        assert (NoDup order) as Hnodup by (rewrite Iperm; apply NoDup_seq).
        destruct (decide (i = idx)) as [-> | Hne].
        -- rewrite list_lookup_insert_eq in Hp
             by (apply lookup_lt_Some in Hpiece; exact Hpiece).
           injection Hp as <-.
           rewrite (NoDup_lookup order k (currentSolvingIndex s) idx Hnodup Hk Hact).
           rewrite bool_decide_eq_true_2 by lia. reflexivity.
        -- rewrite list_lookup_insert_ne in Hp by congruence.
           rewrite (Isolved k i piece Hk Hp).
           assert (k <> currentSolvingIndex s) as Hk'
             by (intros ->; rewrite Hk in Hact; congruence).
           apply bool_decide_ext. lia.
  - rewrite Hd, Hlen. exact Idur.
  - destruct Hout as [(_ & _ & _ & handle & ->) | (_ & _ & _ & ->)];
      simpl; lia.
Qed.

Lemma run_invariant (h : Host) (o : JigsawOptions) (order : list nat)
    (ts : list Q) (s s' : JigsawPuzzle) :
  Invariant h o order s -> run ts s s' -> Invariant h o order s'.
Proof.
  intros Hinv Hrun. induction Hrun as [s | t ts s s1 s2 Hframe _ IH];
    [exact Hinv |].
  apply IH. exact (frame_invariant h o order s s1 t Hinv Hframe).
Qed.

Lemma reachable_invariant (h : Host) (o : JigsawOptions)
    (img : HTMLImageElement) (s : JigsawPuzzle) :
  randomInRange h -> reachable h o img s -> exists order, Invariant h o order s.
Proof.
  intros Hr (s0 & ts & Hinit & Hrun).
  destruct (init_invariant h o img s0 Hr Hinit) as (order & Hinv).
  exists order. exact (run_invariant h o order ts s0 s Hinv Hrun).
Qed.


(** *** Every piece has its own bitmap *)

Lemma NoDup_flat_map {A B} (f : A -> list B) (l : list A) :
  NoDup l ->
  (forall a, a ∈ l -> NoDup (f a)) ->
  (forall a b x, a ∈ l -> b ∈ l -> x ∈ f a -> x ∈ f b -> a = b) ->
  NoDup (flat_map f l).
Proof.
  induction 1 as [| a l Ha Hl IH]; intros Hf Hinj; simpl; [constructor |].
  apply NoDup_app. split; [apply Hf; left |]. split.
  - intros x Hx Hx'. apply list_elem_of_In, in_flat_map in Hx' as (b & Hb & Hxb).
    apply list_elem_of_In in Hb, Hxb.
    assert (a = b) as -> by (apply (Hinj a b x); [left | right | |]; assumption).
    contradiction.
  - apply IH.
    + intros b Hb. apply Hf. right. exact Hb.
    + intros b c x Hb Hc. apply Hinj; right; assumption.
Qed.

Lemma slicePieces_cells (h : Host) (rows cols : nat) (iw ih sf : Q) :
  NoDup ((fun piece => canvas_cell (canvas piece))
           <$> slicePieces h rows cols iw ih sf).
Proof.
  unfold slicePieces. cbv zeta.
  set (mk := newPiece _ _ _ _).
  assert (forall row,
            (fun piece => canvas_cell (canvas piece))
              <$> flat_map (fun col => if getContext h (Some (row, col))
                                       then [mk row col] else []) (seq 0 cols)
            = flat_map (fun col => if getContext h (Some (row, col))
                                   then [(row, col)] else []) (seq 0 cols))
    as Hrow.
  { intros row. induction (seq 0 cols) as [| col l IH]; [reflexivity |].
    simpl. rewrite fmap_app, IH.
    destruct (getContext h (Some (row, col))); reflexivity. }
  assert (forall l,
            (fun piece => canvas_cell (canvas piece))
              <$> flat_map (fun row =>
                    flat_map (fun col => if getContext h (Some (row, col))
                                         then [mk row col] else [])
                             (seq 0 cols)) l
            = flat_map (fun row =>
                flat_map (fun col => if getContext h (Some (row, col))
                                     then [(row, col)] else [])
                         (seq 0 cols)) l) as Hall.
  { induction l as [| row l IH]; [reflexivity |].
    simpl. rewrite fmap_app, IH, Hrow. reflexivity. }
  rewrite Hall.
  assert (forall row x,
            x ∈ flat_map (fun col => if getContext h (Some (row, col))
                                     then [(row, col)] else []) (seq 0 cols) ->
            exists col, x = (row, col)) as Hcell.
  { intros row x Hx. apply list_elem_of_In, in_flat_map in Hx as (col & _ & Hx).
    exists col. destruct (getContext h (Some (row, col))); [| destruct Hx].
    destruct Hx as [<- | []]. reflexivity. }
  apply NoDup_flat_map.
  - apply NoDup_seq.
  - intros row _. apply NoDup_flat_map.
    + apply NoDup_seq.
    + intros col _. destruct (getContext h (Some (row, col))).
      * apply NoDup_singleton.
      * constructor.
    + intros a b x _ _ Ha Hb.
      destruct (getContext h (Some (row, a))); [| inversion Ha].
      destruct (getContext h (Some (row, b))); [| inversion Hb].
      apply list_elem_of_singleton in Ha, Hb. congruence.
  - intros a b x _ _ Ha Hb.
    destruct (Hcell a x Ha) as (ca & ->). destruct (Hcell b _ Hb) as (cb & Hb').
    congruence.
Qed.

Lemma scatterAll_canvas (h : Host) (cw ch mr : Q) (k : nat)
    (ps : list JigsawPiece) :
  canvas <$> scatterAll h cw ch mr k ps = canvas <$> ps.
Proof.
  revert k. induction ps as [| p ps IH]; intros k; [reflexivity |].
  cbn [scatterAll]. rewrite !fmap_cons, IH. reflexivity.
Qed.

Lemma init_canvases (h : Host) (o : JigsawOptions) (img : HTMLImageElement)
    (s : JigsawPuzzle) :
  init h o img = Some s -> NoDup (canvas <$> pieces s).
Proof.
  intros Hinit. rewrite (init_pieces _ _ _ _ Hinit), scatterAll_canvas.
  apply (NoDup_fmap_1 canvas_cell). rewrite <- list_fmap_compose.
  apply slicePieces_cells.
Qed.

Lemma transit_geometry (order : list nat) (e : Q) (s s' : JigsawPuzzle)
    (active : list DrawCall) (i : nat) (piece : JigsawPiece) :
  transit order e s s' active ->
  pieces s !! i = Some piece ->
  exists piece',
    pieces s' !! i = Some piece'
    /\ sameGeometry piece piece'
    /\ (piece' = piece
        \/ (order !! currentSolvingIndex s = Some i
            /\ solved piece = false /\ piece' = markSolved piece)).
Proof.
  intros Htr Hp.
  destruct Htr as [(_ & _ & -> & _) | (idx & act & Hidx & Hact & Hsol & _ & Hcase)].
  - exists piece. split; [exact Hp |]. split; [apply sameGeometry_refl |].
    left. reflexivity.
  - destruct Hcase as [(_ & -> & _) | (_ & -> & _)].
    + exists piece. split; [exact Hp |]. split; [apply sameGeometry_refl |].
      left. reflexivity.
    + destruct (decide (i = idx)) as [-> | Hne].
      * rewrite Hact in Hp. injection Hp as ->.
        exists (markSolved piece).
        split; [apply list_lookup_insert_eq, (lookup_lt_Some _ _ _ Hact) |].
        split; [apply sameGeometry_markSolved |].
        right. repeat split; assumption.
      * exists piece. rewrite list_lookup_insert_ne by congruence.
        split; [exact Hp |]. split; [apply sameGeometry_refl |].
        left. reflexivity.
Qed.

Lemma transit_canvases (order : list nat) (e : Q) (s s' : JigsawPuzzle)
    (active : list DrawCall) :
  transit order e s s' active -> canvas <$> pieces s' = canvas <$> pieces s.
Proof.
  intros Htr. apply list_eq. intros i. rewrite !list_lookup_fmap.
  destruct (pieces s !! i) as [piece |] eqn:Hp.
  - destruct (transit_geometry _ _ _ _ _ i piece Htr Hp)
      as (piece' & -> & (Hc & _) & _).
    simpl. rewrite Hc. reflexivity.
  - apply lookup_ge_None in Hp.
    rewrite <- (transit_length _ _ _ _ _ Htr) in Hp.
    apply lookup_ge_None in Hp. rewrite Hp. reflexivity.
Qed.

Lemma reachable_canvases (h : Host) (o : JigsawOptions)
    (img : HTMLImageElement) (s : JigsawPuzzle) :
  randomInRange h -> reachable h o img s -> NoDup (canvas <$> pieces s).
Proof.
  intros Hr (s0 & ts & Hinit & Hrun).
  destruct (init_invariant h o img s0 Hr Hinit) as (order & Hinv).
  pose proof (init_canvases h o img s0 Hinit) as Hnd.
  clear Hinit. induction Hrun as [s | t ts s s1 s2 Hframe _ IH]; [exact Hnd |].
  apply IH.
  - exact (frame_invariant h o order s s1 t Hinv Hframe).
  - destruct (frame_outcome h o order s s1 t Hinv Hframe)
      as (_ & active & Htr & _).
    rewrite (transit_canvases _ _ _ _ _ Htr). exact Hnd.
Qed.

(* ===================================================================== *)
(** ** Animation driver: the schedule *)
(* ===================================================================== *)

Lemma pieceProgress_active (s : JigsawPuzzle) (e : Q) (i : nat) :
  0 < pieceProgress s e i -> pieceProgress s e i < 1 ->
  arrayGet (solvingOrder s) (currentSolvingIndex s) = Some i.
Proof.
  unfold pieceProgress. intros H0 H1.
  destruct (pieces s !! i) as [piece |]; [| lra].
  destruct (solved piece); [lra |].
  destruct (decide (arrayGet (solvingOrder s) (currentSolvingIndex s) = Some i));
    [assumption | lra].
Qed.

(** C3.  In every state reached from [init] by frames: at most one piece
    has a progress strictly between 0 and 1; the pieces at the positions of
    the solving order before [currentSolvingIndex] are solved and those at
    or after it are not; [currentSolvingIndex] is 0 after [init] and no frame
    decreases it. *)
Theorem schedule_invariant (h : Host) (o : JigsawOptions)
    (img : HTMLImageElement) (s : JigsawPuzzle) :
  randomInRange h ->
  reachable h o img s ->
  exists order,
    solvingOrder s = Some <$> order
    /\ order ≡ₚ seq 0 (length (pieces s))
    /\ (forall elapsed i j,
          0 < pieceProgress s elapsed i < 1 ->
          0 < pieceProgress s elapsed j < 1 -> i = j)
    /\ (forall k i piece,
          order !! k = Some i -> pieces s !! i = Some piece ->
          ((k < currentSolvingIndex s)%nat -> solved piece = true)
          /\ ((currentSolvingIndex s <= k)%nat -> solved piece = false))
    /\ (forall s0, init h o img = Some s0 -> currentSolvingIndex s0 = 0%nat)
    /\ (forall t s',
          frame t s s' ->
          (currentSolvingIndex s <= currentSolvingIndex s')%nat).
Proof.
  intros Hr Hreach.
  destruct (reachable_invariant h o img s Hr Hreach) as (order & Hinv).
  exists order.
  split; [apply (inv_order _ _ _ _ Hinv) |].
  split; [apply (inv_perm _ _ _ _ Hinv) |].
  split.
  { intros e i j [Hi0 Hi1] [Hj0 Hj1].
    pose proof (pieceProgress_active s e i Hi0 Hi1) as Hi.
    pose proof (pieceProgress_active s e j Hj0 Hj1) as Hj.
    congruence. }
  split.
  { intros k i piece Hk Hp.
    rewrite (inv_solved _ _ _ _ Hinv k i piece Hk Hp).
    split; intros Hlt.
    - apply bool_decide_eq_true_2. exact Hlt.
    - apply bool_decide_eq_false_2. lia. }
  split.
  { intros s0 Hinit. apply (init_animation _ _ _ _ Hinit). }
  intros t s' Hframe.
  destruct (frame_outcome h o order s s' t Hinv Hframe)
    as (_ & active & Htr & _).
  apply (transit_index _ _ _ _ _ Htr).
Qed.

(* ===================================================================== *)
(** ** Animation driver: the effect of a frame *)
(* ===================================================================== *)

(** C4.  A frame does one of two things to the pieces and to the index:
    nothing, or it completes the transition of the piece in transit, the
    piece at [solvingOrder[currentSolvingIndex]]: it sets the [solved] flag
    of that piece, which was [false], and its [rotation] to 0, changes no
    other piece, and increments [currentSolvingIndex].  For a positive
    [totalDuration], the frame completes the piece when a piece is left
    and the [progress] it computes reaches 1, and only then.  No frame
    changes the bitmap, the home position, the stored current position or
    the size of a piece, and a solved piece is never changed again.  Every
    frame draws each solved piece, by the call of the index of the piece,
    at its home position, unrotated; and every call of the frame that
    draws the bitmap of a solved piece does so. *)
Theorem frame_effect (h : Host) (o : JigsawOptions) (img : HTMLImageElement)
    (s s' : JigsawPuzzle) (t : Q) :
  randomInRange h ->
  reachable h o img s ->
  frame t s s' ->
  let elapsed := t - animationStartTime s in
  exists order,
    solvingOrder s = Some <$> order
    /\ ((pieces s' = pieces s
         /\ currentSolvingIndex s' = currentSolvingIndex s)
        \/ (exists idx piece,
              order !! currentSolvingIndex s = Some idx
              /\ pieces s !! idx = Some piece
              /\ solved piece = false
              /\ pieces s' = <[idx := markSolved piece]> (pieces s)
              /\ solved (markSolved piece) = true
              /\ rotation (markSolved piece) = 0
              /\ sameGeometry piece (markSolved piece)
              /\ currentSolvingIndex s' = S (currentSolvingIndex s)))
    /\ (0 < totalDuration o ->
        (currentSolvingIndex s < length order)%nat ->
        1 <= progressAt s elapsed ->
        exists idx piece,
          order !! currentSolvingIndex s = Some idx
          /\ pieces s !! idx = Some piece
          /\ solved piece = false
          /\ pieces s' = <[idx := markSolved piece]> (pieces s)
          /\ currentSolvingIndex s' = S (currentSolvingIndex s))
    /\ (0 < totalDuration o ->
        ~ ((currentSolvingIndex s < length order)%nat
           /\ 1 <= progressAt s elapsed) ->
        pieces s' = pieces s
        /\ currentSolvingIndex s' = currentSolvingIndex s)
    /\ (forall i piece,
          pieces s !! i = Some piece ->
          exists piece',
            pieces s' !! i = Some piece'
            /\ sameGeometry piece piece'
            /\ (solved piece = true -> piece' = piece))
    /\ (forall i piece,
          pieces s !! i = Some piece -> solved piece = true ->
          ctx s' !! i
          = Some (DrawImage (canvas piece) (originalX piece) (originalY piece)))
    /\ (forall i piece call,
          pieces s !! i = Some piece -> solved piece = true ->
          call ∈ ctx s' -> drawnImage call = canvas piece ->
          renderedPosition call = (originalX piece, originalY piece)
          /\ renderedRotation call = 0).
Proof.
  intros Hr Hreach Hframe elapsed.
  destruct (reachable_invariant h o img s Hr Hreach) as (order & Hinv).
  pose proof (reachable_canvases h o img s Hr Hreach) as Hnd.
  destruct (frame_outcome h o order s s' t Hinv Hframe)
    as (_ & active & Htr & Hout).
  fold elapsed in Htr, Hout.
  exists order. split; [apply (inv_order _ _ _ _ Hinv) |].
  assert (forall i piece,
            pieces s !! i = Some piece ->
            exists piece',
              pieces s' !! i = Some piece'
              /\ sameGeometry piece piece'
              /\ (solved piece = true -> piece' = piece)) as Hgeo.
  { intros i piece Hp.
    destruct (transit_geometry _ _ _ _ _ i piece Htr Hp)
      as (piece' & Hp' & Hsame & Hcase).
    exists piece'. split; [exact Hp' |]. split; [exact Hsame |].
    intros Hsolved. destruct Hcase as [-> | (_ & Hfalse & _)];
      [reflexivity | congruence]. }
  split; [| split; [| split; [| split; [exact Hgeo | split]]]].
  - destruct Htr as [(_ & _ & Hps & Hcsi)
                    | (idx & piece & Hidx & Hp & Hsol & _ & Hcase)];
      [left; split; assumption |].
    destruct Hcase as [(_ & Hps & Hcsi) | (_ & Hps & Hcsi)];
      [left; split; assumption |].
    right. exists idx, piece. repeat split; assumption.
  - intros _ Hlt Hprog.
    destruct Htr as [(Hge & _) | (idx & piece & Hidx & Hp & Hsol & _ & Hcase)];
      [lia |].
    destruct Hcase as [(Hlt1 & _) | (_ & Hps & Hcsi)]; [lra |].
    exists idx, piece. repeat split; assumption.
  - intros _ Hnot.
    destruct Htr as [(_ & _ & Hps & Hcsi)
                    | (idx & piece & Hidx & _ & _ & _ & Hcase)];
      [split; assumption |].
    destruct Hcase as [(_ & Hps & Hcsi) | (Hprog & _)]; [split; assumption |].
    exfalso. apply Hnot. split; [| exact Hprog].
    apply (lookup_lt_Some _ _ _ Hidx).
  - intros i piece Hp Hsolved.
    destruct Hout as [(_ & Hctx & _) | (_ & Hctx & _)]; rewrite Hctx.
    + rewrite lookup_app_l
        by (rewrite length_map; apply (lookup_lt_Some _ _ _ Hp)).
      change (map drawPiece (pieces s)) with (drawPiece <$> pieces s).
      rewrite list_lookup_fmap, Hp. unfold drawPiece. cbn. rewrite Hsolved.
      reflexivity.
    + destruct (Hgeo i piece Hp) as (piece' & Hp' & _ & Hsame).
      rewrite (Hsame Hsolved) in Hp'.
      change (map drawHome (pieces s')) with (drawHome <$> pieces s').
      rewrite list_lookup_fmap, Hp'. reflexivity.
  - intros i piece call Hp Hsolved Hcall Himg.
    assert (forall j other,
              pieces s !! j = Some other -> canvas other = canvas piece ->
              other = piece) as Hsame.
    { intros j other Hj Hc.
      assert (j = i) as ->; [| congruence].
      apply (NoDup_lookup (canvas <$> pieces s) j i (canvas piece) Hnd);
        rewrite list_lookup_fmap; [rewrite Hj, <- Hc | rewrite Hp];
        reflexivity. }
    destruct Hout as [(_ & Hctx & _) | (_ & Hctx & _)]; rewrite Hctx in Hcall.
    + apply elem_of_app in Hcall as [Hcall | Hcall].
      * apply list_elem_of_In, in_map_iff in Hcall as (other & <- & Hin).
        apply list_elem_of_In, list_elem_of_lookup in Hin as (j & Hj).
        unfold drawPiece in *.
        destruct (solved other) eqn:Hso.
        -- rewrite (Hsame j other Hj Himg). split; reflexivity.
        -- simpl in Himg. rewrite (Hsame j other Hj Himg) in Hso. congruence.
      * destruct Htr as [(_ & -> & _) | (idx & act & _ & Hact & Hso & -> & _)].
        -- inversion Hcall.
        -- apply list_elem_of_singleton in Hcall. subst call.
           simpl in Himg. rewrite (Hsame idx act Hact Himg) in Hso. congruence.
    + apply list_elem_of_In, in_map_iff in Hcall as (other & <- & Hin).
      apply list_elem_of_In, list_elem_of_lookup in Hin as (j & Hj).
      simpl in Himg.
      destruct (lookup_lt_is_Some_2 (pieces s) j) as [before Hb].
      { rewrite <- (transit_length _ _ _ _ _ Htr).
        apply (lookup_lt_Some _ _ _ Hj). }
      destruct (Hgeo j before Hb) as (other' & Hj' & Hsg & _).
      rewrite Hj in Hj'. injection Hj' as <-.
      destruct Hsg as (Hc & Hx & Hy & _).
      rewrite Hc in Himg. rewrite <- (Hsame j before Hb Himg).
      simpl. rewrite Hx, Hy. split; reflexivity.
Qed.

(* ===================================================================== *)
(** ** Animation driver: progress of the piece in transit *)
(* ===================================================================== *)

Lemma progressAt_le_1 (s : JigsawPuzzle) (e : Q) : progressAt s e <= 1.
Proof. apply Q.le_min_r. Qed.

Lemma progressAt_nonneg (s : JigsawPuzzle) (e : Q) :
  0 < pieceMoveDuration s -> 0 <= pieceElapsedAt s e -> 0 <= progressAt s e.
Proof.
  intros Hd He. unfold progressAt, Js.Math_min2.
  apply Q.min_glb; [| lra].
  apply Qle_shift_div_l; [exact Hd | lra].
Qed.

Lemma progressAt_complete (s : JigsawPuzzle) (e : Q) :
  0 < pieceMoveDuration s ->
  (1 <= progressAt s e <-> pieceMoveDuration s <= pieceElapsedAt s e).
Proof.
  intros Hd. unfold progressAt, Js.Math_min2. split.
  - intros H.
    assert (1 <= pieceElapsedAt s e / pieceMoveDuration s) as H'
      by (eapply Qle_trans; [exact H | apply Q.le_min_l]).
    apply (Qmult_le_compat_r _ _ (pieceMoveDuration s)) in H'; [| lra].
    rewrite Qmult_1_l in H'.
    assert (pieceElapsedAt s e / pieceMoveDuration s * pieceMoveDuration s
            == pieceElapsedAt s e) as E by (field; lra).
    rewrite E in H'. exact H'.
  - intros H. apply Q.min_glb; [| lra].
    apply Qle_shift_div_l; [exact Hd | lra].
Qed.

Lemma duration_positive (h : Host) (o : JigsawOptions) (order : list nat)
    (s : JigsawPuzzle) :
  Invariant h o order s -> 0 < totalDuration o ->
  (currentSolvingIndex s < length order)%nat ->
  0 < pieceMoveDuration s.
Proof.
  intros Hinv HT Hlt. rewrite (inv_duration _ _ _ _ Hinv).
  pose proof (Permutation_length (inv_perm _ _ _ _ Hinv)) as Hlen.
  rewrite length_seq in Hlen.
  apply Qlt_shift_div_l; [apply of_nat_pos; lia | lra].
Qed.

Lemma frame_windowBegun (h : Host) (o : JigsawOptions) (order : list nat)
    (s s' : JigsawPuzzle) (now t : Q) :
  Invariant h o order s -> 0 < totalDuration o ->
  windowBegun now s -> now <= t -> frame t s s' -> windowBegun t s'.
Proof.
  intros Hinv HT Hw Hle Hframe.
  destruct (frame_outcome h o order s s' t Hinv Hframe)
    as ((_ & _ & Hd & Hst) & active & Htr & _).
  unfold windowBegun in *. rewrite Hd, Hst.
  destruct Htr as [(_ & _ & _ & ->) | (idx & piece & Hidx & _ & _ & _ & Hcase)];
    [lra |].
  destruct Hcase as [(_ & _ & ->) | (Hprog & _ & ->)]; [lra |].
  pose proof (duration_positive h o order s Hinv HT (lookup_lt_Some _ _ _ Hidx))
    as Hpos.
  apply (progressAt_complete s _ Hpos) in Hprog.
  unfold pieceElapsedAt in Hprog. rewrite of_nat_S. lra.
Qed.

Lemma run_windowBegun (h : Host) (o : JigsawOptions) (order : list nat)
    (ts : list Q) (s s' : JigsawPuzzle) (now : Q) :
  Invariant h o order s -> 0 < totalDuration o ->
  windowBegun now s -> nondecreasing now ts -> run ts s s' ->
  windowBegun (lastOf now ts) s'.
Proof.
  intros Hinv HT Hw Hts Hrun. revert now Hw Hts.
  induction Hrun as [s | t ts s s1 s2 Hframe _ IH]; intros now Hw Hts;
    [exact Hw |].
  destruct Hts as [Hle Hts]. cbn [lastOf].
  apply IH.
  - exact (frame_invariant h o order s s1 t Hinv Hframe).
  - exact (frame_windowBegun h o order s s1 now t Hinv HT Hw Hle Hframe).
  - exact Hts.
Qed.

(** C2, as the code has it.  On a frame with
    [currentSolvingIndex < N] the progress of the piece in transit is
    [min(pieceElapsed / pieceMoveDuration, 1)]: it never exceeds 1 (for a
    [pieceMoveDuration] other than 0), and it is the value clamped to
    [[0, 1]], hence not below 0, whenever [pieceElapsed >= 0] (for a
    positive [pieceMoveDuration]).  That is so
    on every frame of a run whose timestamps start at the start time and do
    not decrease. *)
Theorem progress_bounds (h : Host) (o : JigsawOptions) (img : HTMLImageElement) :
  (forall s elapsed,
     let pieceElapsed :=
       elapsed - Js.of_nat (currentSolvingIndex s) * pieceMoveDuration s in
     progressAt s elapsed = Qmin (pieceElapsed / pieceMoveDuration s) 1
     /\ (~ pieceMoveDuration s == 0 -> progressAt s elapsed <= 1)
     /\ (0 < pieceMoveDuration s -> 0 <= pieceElapsed ->
         0 <= progressAt s elapsed
         /\ progressAt s elapsed
            == clamp (pieceElapsed / pieceMoveDuration s) 0 1))
  /\ (forall s0 ts s t,
        randomInRange h -> 0 < totalDuration o ->
        init h o img = Some s0 -> run ts s0 s ->
        nondecreasing (performance_now h) (ts ++ [t]) ->
        (currentSolvingIndex s < length (solvingOrder s))%nat ->
        0 <= progressAt s (t - animationStartTime s) <= 1).
Proof.
  split.
  - intros s e pieceElapsed.
    split; [reflexivity |]. split; [intros _; apply progressAt_le_1 |].
    intros Hd He.
    pose proof (progressAt_nonneg s e Hd He) as H0.
    split; [exact H0 |].
    unfold clamp. symmetry. apply Q.max_r. exact H0.
  - intros s0 ts s t Hr HT Hinit Hrun Hts Hlt.
    destruct (init_invariant h o img s0 Hr Hinit) as (order & Hinv0).
    pose proof (run_invariant h o order ts s0 s Hinv0 Hrun) as Hinv.
    assert (windowBegun (performance_now h) s0) as Hw0.
    { unfold windowBegun.
      rewrite (proj1 (init_animation _ _ _ _ Hinit)).
      rewrite (inv_start _ _ _ _ Hinv0).
      change (Js.of_nat 0) with 0. lra. }
    assert (nondecreasing (performance_now h) ts
            /\ lastOf (performance_now h) ts <= t) as [Hts1 Hts2].
    { clear -Hts. revert Hts. generalize (performance_now h).
      induction ts as [| u ts IH]; intros from; simpl.
      - tauto.
      - intros [Hle Hrest]. destruct (IH u Hrest). tauto. }
    pose proof (run_windowBegun h o order ts s0 s _ Hinv0 HT Hw0 Hts1 Hrun)
      as Hw.
    rewrite (inv_order _ _ _ _ Hinv), length_fmap in Hlt.
    pose proof (duration_positive h o order s Hinv HT Hlt) as Hd.
    split; [| apply progressAt_le_1].
    apply progressAt_nonneg; [exact Hd |].
    unfold windowBegun in Hw. unfold pieceElapsedAt. lra.
Qed.

(** The claim C2 as the specification words it fails: a frame called back
    with a timestamp 512 ms before the start time computes the progress
    [-1/2], which is below 0 and is not the clamped value. *)
Lemma progress_negative :
  exists s,
    init demoHost demoOptions demoImage = Some s
    /\ (currentSolvingIndex s < length (solvingOrder s))%nat
    /\ progressAt s (-512 - animationStartTime s) == - (1 # 2)
    /\ ~ 0 <= progressAt s (-512 - animationStartTime s)
    /\ ~ progressAt s (-512 - animationStartTime s)
         == clamp (pieceElapsedAt s (-512 - animationStartTime s)
                   / pieceMoveDuration s) 0 1.
Proof.
  eexists. split; [vm_compute; reflexivity |].
  split; [vm_compute; lia |].
  split; [vm_compute; reflexivity |].
  split.
  - vm_compute. intros H. apply H. reflexivity.
  - vm_compute. intros H. discriminate H.
Qed.

(* ===================================================================== *)
(** ** Animation driver: the last frame *)
(* ===================================================================== *)

Lemma frameOf_frame (t : Q) (s s' : JigsawPuzzle) :
  frameOf t s = Some s' -> frame t s s'.
Proof.
  unfold frameOf. destruct (frameQueue s) as [| handle rest] eqn:Hq;
    [discriminate |].
  intros H. exact (frame_run t s s' handle rest Hq H).
Qed.

Lemma runOf_run (ts : list Q) (s s' : JigsawPuzzle) :
  runOf ts s = Some s' -> run ts s s'.
Proof.
  revert s. induction ts as [| t ts IH]; intros s; simpl.
  - intros [= <-]. constructor.
  - destruct (frameOf t s) as [s1 |] eqn:H1; [| discriminate].
    intros H. apply (run_cons t ts s s1 s'); [apply frameOf_frame, H1 |].
    apply IH, H.
Qed.

Lemma run_snoc (ts : list Q) (t : Q) (s s' s'' : JigsawPuzzle) :
  run ts s s' -> frame t s' s'' -> run (ts ++ [t]) s s''.
Proof.
  intros Hrun Hframe. induction Hrun as [s | u ts s s1 s2 Hf _ IH]; simpl.
  - apply (run_cons t [] s s''); [exact Hframe | constructor].
  - apply (run_cons u _ s s1); [exact Hf | apply IH, Hframe].
Qed.

(** C1, as the code has it.  A frame that observes
    [elapsed >= totalDuration] requests no further frame, so that none is
    run after it; it leaves ["0:00"] in the countdown; and it leaves on the
    canvas exactly one call per piece, which puts the bitmap of the piece
    at its home position, unrotated.  The [solved] flag is set for the
    pieces at the positions of the solving order before
    [currentSolvingIndex], and for no other piece. *)
Theorem final_frame (h : Host) (o : JigsawOptions) (img : HTMLImageElement)
    (s s' : JigsawPuzzle) (t : Q) :
  randomInRange h ->
  reachable h o img s ->
  frame t s s' ->
  totalDuration (options s) <= t - animationStartTime s ->
  frameQueue s' = []
  /\ (forall t' s'', ~ frame t' s' s'')
  /\ timerText s' = "0:00"%string
  /\ ctx s' = map drawHome (pieces s')
  /\ (forall i piece,
        pieces s' !! i = Some piece ->
        exists call,
          ctx s' !! i = Some call
          /\ drawnImage call = canvas piece
          /\ renderedPosition call = (originalX piece, originalY piece)
          /\ renderedRotation call = 0)
  /\ exists order,
       solvingOrder s' = Some <$> order
       /\ order ≡ₚ seq 0 (length (pieces s'))
       /\ (forall k i piece,
             order !! k = Some i -> pieces s' !! i = Some piece ->
             solved piece = bool_decide (k < currentSolvingIndex s')%nat).
Proof.
  intros Hr Hreach Hframe Hend.
  destruct (reachable_invariant h o img s Hr Hreach) as (order & Hinv).
  pose proof (frame_invariant h o order s s' t Hinv Hframe) as Hinv'.
  destruct (frame_outcome h o order s s' t Hinv Hframe)
    as (_ & active & Htr & Hout).
  destruct Hout as [(Hlt & _) | (_ & Hctx & Htxt & Hq)]; [lra |].
  split; [exact Hq |].
  split.
  { intros t' s'' [handle rest Hq' _]. rewrite Hq in Hq'. discriminate. }
  split.
  { rewrite Htxt. apply formatRemaining_zero, timerRemaining_zero. lra. }
  split; [exact Hctx |].
  split.
  { intros i piece Hp. exists (drawHome piece).
    rewrite Hctx. change (map drawHome (pieces s')) with (drawHome <$> pieces s').
    rewrite list_lookup_fmap, Hp. repeat split. }
  exists order.
  split; [apply (inv_order _ _ _ _ Hinv') |].
  split; [apply (inv_perm _ _ _ _ Hinv') |].
  apply (inv_solved _ _ _ _ Hinv').
Qed.

(** The small puzzle, run. *)
Lemma demo_random : randomInRange demoHost.
Proof. intros k. split; [discriminate | reflexivity]. Qed.

Lemma demo_init : init demoHost demoOptions demoImage = Some demoStart.
Proof. vm_compute. reflexivity. Qed.

Lemma demo_frame : frame 16 demoStart demoNext.
Proof. apply frameOf_frame. vm_compute. reflexivity. Qed.

Lemma demo_last : frame 2048 demoNext demoEnd.
Proof. apply frameOf_frame. vm_compute. reflexivity. Qed.


Lemma demo_reachable_next : reachable demoHost demoOptions demoImage demoNext.
Proof.
  exists demoStart, [16]. split; [exact demo_init |].
  apply (run_cons 16 [] demoStart demoNext); [exact demo_frame | constructor].
Qed.

(** The claim C1 as the specification words it fails on the [solved]
    flags: when the second frame of the small puzzle comes at 2048 ms, it
    observes [elapsed >= totalDuration] with [currentSolvingIndex = 0],
    completes the first piece of the solving order, and ends the run with
    the other piece unsolved. *)
Lemma final_frame_unsolved :
  reachable demoHost demoOptions demoImage demoNext
  /\ frame 2048 demoNext demoEnd
  /\ totalDuration (options demoNext) <= 2048 - animationStartTime demoNext
  /\ frameQueue demoEnd = []
  /\ map solved (pieces demoEnd) = [true; false]
  /\ ~ (forall i piece, pieces demoEnd !! i = Some piece -> solved piece = true).
Proof.
  split; [exact demo_reachable_next |].
  split; [exact demo_last |].
  split; [vm_compute; discriminate |].
  split; [vm_compute; reflexivity |].
  split; [vm_compute; reflexivity |].
  intros Hall.
  assert (exists piece, pieces demoEnd !! 1%nat = Some piece
                        /\ solved piece = false) as (piece & Hp & Hs)
    by (eexists; split; vm_compute; reflexivity).
  rewrite (Hall _ _ Hp) in Hs. discriminate Hs.
Qed.

(* ===================================================================== *)
(** ** The page: the duration read from the query *)
(* ===================================================================== *)

Lemma parseInt_number (v : option string) :
  exists n, Page.parseInt v = Page.Number n.
Proof.
  unfold Page.parseInt.
  repeat match goal with
         | |- context [let '(_, _) := ?x in _] => destruct x
         end.
  destruct (Page.digits _ _ _); eexists; reflexivity.
Qed.

Lemma coalesce_parseInt (v : option string) (fallback : Page.JsValue) :
  Page.coalesce (Page.parseInt v) fallback = Page.parseInt v.
Proof.
  destruct (parseInt_number v) as [n ->]. reflexivity.
Qed.

(** C10.  [parseInt] returns a number for every argument, [NaN] for the
    [null] that [get] returns when the query has no ["minutes"] parameter;
    so [?? 2] never yields its right operand: without the parameter
    [minutes] is [NaN] and the puzzle is built with
    [totalDuration = NaN * 60000 = NaN], not with two minutes, and
    [minutes] is a number only when the parameter is present and parses to
    that number. *)
Theorem minutes_fallback_dead :
  (forall v, exists n, Page.parseInt v = Page.Number n)
  /\ Page.parseInt None = Page.Number Page.NaN
  /\ (forall urlParams,
        Page.minutes urlParams
        = Page.parseInt (Page.get urlParams "minutes"))
  /\ (forall urlParams,
        Page.get urlParams "minutes" = None ->
        Page.minutes urlParams = Page.Number Page.NaN
        /\ Page.totalDuration (Page.puzzleOptions urlParams) = Page.NaN
        /\ Page.totalDuration (Page.puzzleOptions urlParams)
           <> Page.Num (2 * 60000))
  /\ (forall urlParams q,
        Page.minutes urlParams = Page.Number (Page.Num q) ->
        exists v,
          Page.get urlParams "minutes" = Some v
          /\ Page.parseInt (Some v) = Page.Number (Page.Num q)).
Proof.
  split; [exact parseInt_number |].
  split; [reflexivity |].
  split; [intros urlParams; apply coalesce_parseInt |].
  split.
  - intros urlParams Hget.
    assert (Page.minutes urlParams = Page.Number Page.NaN) as Hmin
      by (unfold Page.minutes; rewrite Hget; reflexivity).
    split; [exact Hmin |].
    unfold Page.puzzleOptions. cbn [Page.totalDuration]. rewrite Hmin.
    split; [reflexivity | discriminate].
  - intros urlParams q Hq. unfold Page.minutes in Hq.
    rewrite coalesce_parseInt in Hq.
    destruct (Page.get urlParams "minutes") as [v |]; [| discriminate Hq].
    exists v. split; [reflexivity | exact Hq].
Qed.


(* ===================================================================== *)
(** ** The properties on the small puzzle *)
(* ===================================================================== *)

Lemma final_frame_witness :
  frameQueue demoEnd = [] /\ timerText demoEnd = "0:00"%string.
Proof.
  destruct (final_frame demoHost demoOptions demoImage demoNext demoEnd 2048)
    as (Hq & _ & Htxt & _).
  - exact demo_random.
  - exact demo_reachable_next.
  - exact demo_last.
  - vm_compute. discriminate.
  - split; assumption.
Defined.

Lemma progress_bounds_witness :
  0 <= progressAt demoStart (16 - animationStartTime demoStart) <= 1.
Proof.
  apply (proj2 (progress_bounds demoHost demoOptions demoImage)
               demoStart [] demoStart 16).
  - exact demo_random.
  - reflexivity.
  - exact demo_init.
  - constructor.
  - simpl. split; [discriminate | exact I].
  - vm_compute. lia.
Defined.

Lemma schedule_invariant_witness :
  exists order,
    solvingOrder demoNext = Some <$> order
    /\ order ≡ₚ seq 0 (length (pieces demoNext)).
Proof.
  destruct (schedule_invariant demoHost demoOptions demoImage demoNext)
    as (order & Horder & Hperm & _).
  - exact demo_random.
  - exact demo_reachable_next.
  - exists order. split; assumption.
Defined.

Lemma frame_effect_witness :
  currentSolvingIndex demoEnd = S (currentSolvingIndex demoNext).
Proof.
  destruct (frame_effect demoHost demoOptions demoImage demoNext demoEnd 2048)
    as (order & Horder & _ & Hcomplete & _).
  - exact demo_random.
  - exact demo_reachable_next.
  - exact demo_last.
  - destruct Hcomplete as (idx & piece & _ & _ & _ & _ & Hcsi).
    + reflexivity.
    + apply (f_equal length) in Horder. rewrite length_fmap in Horder.
      rewrite <- Horder. vm_compute. lia.
    + vm_compute. discriminate.
    + exact Hcsi.
Defined.


Lemma solvingOrder_permutation_witness :
  exists order, solvingOrder demoStart = Some <$> order /\ NoDup order.
Proof.
  destruct (solvingOrder_permutation demoHost demoOptions demoImage demoStart)
    as (order & Horder & _ & Hnodup & _).
  - exact demo_random.
  - exact demo_init.
  - vm_compute. lia.
  - exists order. split; assumption.
Defined.

Lemma easeInOutCubic_spec_witness :
  easeInOutCubic (1 # 4) <= easeInOutCubic (3 # 4).
Proof.
  destruct easeInOutCubic_spec as (_ & _ & _ & Hmono & _).
  apply Hmono; vm_compute; discriminate.
Defined.

Lemma slicing_tiles_witness : length (pieces demoStart) = 2%nat.
Proof.
  destruct (slicing_tiles demoHost demoOptions demoImage demoStart)
    as (Hlen & _).
  - simpl. lia.
  - simpl. lia.
  - intros row col _ _. reflexivity.
  - exact demo_init.
  - exact Hlen.
Defined.

Lemma updateTimer_text_witness :
  timerText (updateTimer 3000 demoStart) = "0:00"%string.
Proof.
  destruct (updateTimer_text demoStart) as (_ & _ & _ & Hzero & _).
  apply Hzero. vm_compute. discriminate.
Defined.

Lemma minutes_fallback_dead_witness :
  Page.totalDuration (Page.puzzleOptions [("theme", "cats")]%string)
  = Page.NaN.
Proof.
  destruct minutes_fallback_dead as (_ & _ & _ & Hnone & _).
  apply (Hnone [("theme", "cats")]%string). reflexivity.
Defined.

(* ===================================================================== *)
(** ** Further properties: initialisation *)
(* ===================================================================== *)

Lemma init_succeeds (h : Host) (o : JigsawOptions) (img : HTMLImageElement) :
  getContext h None = true -> exists s, init h o img = Some s.
Proof.
  intros Hctx. unfold init, initSteps, setupCanvas. rewrite Hctx.
  eexists. reflexivity.
Qed.

Lemma fmap_flat_map {A B C} (g : B -> C) (f : A -> list B) (l : list A) :
  g <$> flat_map f l = flat_map (fun a => g <$> f a) l.
Proof.
  induction l as [| a l IH]; [reflexivity |].
  simpl. rewrite fmap_app, IH. reflexivity.
Qed.

Lemma filter_flat_map {A B} (keep : B -> bool) (f : A -> list B) (l : list A) :
  List.filter keep (flat_map f l) = flat_map (fun a => List.filter keep (f a)) l.
Proof.
  induction l as [| a l IH]; [reflexivity |].
  simpl. rewrite List.filter_app, IH. reflexivity.
Qed.

Lemma slicePieces_gridCells (h : Host) (rows cols : nat) (iw ih sf : Q) :
  (fun piece => canvas_cell (canvas piece)) <$> slicePieces h rows cols iw ih sf
  = List.filter (fun cell => getContext h (Some cell)) (gridCells rows cols).
Proof.
  unfold slicePieces, gridCells. cbv zeta.
  rewrite fmap_flat_map, filter_flat_map.
  apply flat_map_agree, Forall_forall. intros row _.
  induction (seq 0 cols) as [| col l IH]; [reflexivity |].
  simpl. rewrite fmap_app, IH.
  destruct (getContext h (Some (row, col))); reflexivity.
Qed.

Lemma gridCells_length (rows cols : nat) :
  length (gridCells rows cols) = (rows * cols)%nat.
Proof.
  unfold gridCells. rewrite (flat_map_uniform_length _ cols).
  - rewrite length_seq. reflexivity.
  - apply Forall_forall. intros row _. rewrite length_map, length_seq.
    reflexivity.
Qed.

Lemma init_pieces_cells (h : Host) (o : JigsawOptions) (img : HTMLImageElement)
    (s : JigsawPuzzle) :
  init h o img = Some s ->
  (fun piece => canvas_cell (canvas piece)) <$> pieces s
  = List.filter (fun cell => getContext h (Some cell))
                (gridCells (rows o) (cols o)).
Proof.
  intros Hinit. rewrite (list_fmap_compose canvas canvas_cell).
  rewrite (init_pieces _ _ _ _ Hinit), scatterAll_canvas.
  rewrite <- list_fmap_compose. apply slicePieces_gridCells.
Qed.

Lemma init_pieces_bound (h : Host) (o : JigsawOptions) (img : HTMLImageElement)
    (s : JigsawPuzzle) :
  init h o img = Some s -> (length (pieces s) <= rows o * cols o)%nat.
Proof.
  intros Hinit.
  rewrite <- (length_fmap (fun piece => canvas_cell (canvas piece))).
  rewrite (init_pieces_cells h o img s Hinit), <- gridCells_length.
  apply List.filter_length_le.
Qed.

(** X2.  The pieces created are those of the cells whose canvas yields a
    context, in row-major order; a cell without context is skipped, so
    there are at most [rows * cols] pieces, and no piece at all for an
    empty grid. *)
Theorem pieces_follow_contexts (h : Host) (o : JigsawOptions)
    (img : HTMLImageElement) (s : JigsawPuzzle) :
  init h o img = Some s ->
  (fun piece => canvas_cell (canvas piece)) <$> pieces s
  = List.filter (fun cell => getContext h (Some cell))
                (gridCells (rows o) (cols o))
  /\ (length (pieces s) <= rows o * cols o)%nat
  /\ (forall row col,
        (row, col) ∈ ((fun piece => canvas_cell (canvas piece)) <$> pieces s)
        <-> ((row < rows o)%nat /\ (col < cols o)%nat
             /\ getContext h (Some (row, col)) = true)).
Proof.
  intros Hinit.
  pose proof (init_pieces_cells h o img s Hinit) as Hcells.
  split; [exact Hcells |]. split.
  - apply (init_pieces_bound h o img s Hinit).
  - intros row col. rewrite Hcells, list_elem_of_In, filter_In.
    unfold gridCells. rewrite in_flat_map. split.
    + intros [(row' & Hrow & Hcol) Hok].
      apply in_map_iff in Hcol as (col' & [= <- <-] & Hcol).
      apply in_seq in Hrow, Hcol. repeat split; [lia | lia | exact Hok].
    + intros (Hrow & Hcol & Hok). split; [| exact Hok].
      exists row. split; [apply in_seq; lia |].
      apply in_map, in_seq. lia.
Qed.

Lemma slicePieces_elem (h : Host) (rows cols : nat) (iw ih sf : Q)
    (piece : JigsawPiece) :
  piece ∈ slicePieces h rows cols iw ih sf ->
  exists row col,
    (row < rows)%nat /\ (col < cols)%nat
    /\ piece = newPiece (iw / Js.of_nat cols) (ih / Js.of_nat rows)
                        (iw / Js.of_nat cols * sf) (ih / Js.of_nat rows * sf)
                        row col.
Proof.
  intros Hin. apply list_elem_of_In in Hin.
  unfold slicePieces in Hin. cbv zeta in Hin.
  apply in_flat_map in Hin as (row & Hrow & Hin).
  apply in_flat_map in Hin as (col & Hcol & Hin).
  apply in_seq in Hrow, Hcol.
  destruct (getContext h (Some (row, col))); [| destruct Hin].
  destruct Hin as [<- | []].
  exists row, col. repeat split; lia.
Qed.

(** Every piece of the initial state is a scattered piece of the grid. *)
Lemma init_piece_origin (h : Host) (o : JigsawOptions) (img : HTMLImageElement)
    (s : JigsawPuzzle) (i : nat) (piece : JigsawPiece) :
  init h o img = Some s -> pieces s !! i = Some piece ->
  let sf := scaleFactorOf (maxWidth o) (maxHeight o)
                          (image_width img) (image_height img) in
  exists row col,
    (row < rows o)%nat /\ (col < cols o)%nat
    /\ piece
       = scatter h (canvasWidth s) (canvasHeight s) (maxRotation o) (3 * i)
                 (newPiece (image_width img / Js.of_nat (cols o))
                           (image_height img / Js.of_nat (rows o))
                           (image_width img / Js.of_nat (cols o) * sf)
                           (image_height img / Js.of_nat (rows o) * sf)
                           row col).
Proof.
  intros Hinit Hp sf. rewrite (init_pieces _ _ _ _ Hinit) in Hp.
  destruct (init_canvas _ _ _ _ Hinit) as [-> ->].
  rewrite scatterAll_lookup in Hp.
  destruct (slicePieces _ _ _ _ _ _ !! i) as [original |] eqn:Ho;
    [| discriminate].
  injection Hp as <-.
  apply list_elem_of_lookup_2 in Ho.
  destruct (slicePieces_elem _ _ _ _ _ _ _ Ho) as (row & col & Hr & Hc & ->).
  exists row, col. repeat split; assumption.
Qed.

(** X4.  After the shuffle the piece of index [i] owes its scatter to
    three draws of its own, the draws [3 i], [3 i + 1] and [3 i + 2]: its
    position lies in the canvas (of the dimensions read back from the
    canvas element) enlarged by a quarter on every side, its rotation
    between [-maxRotation] and [maxRotation], the upper bounds being
    strict; it is unsolved. *)
Theorem scatter_ranges (h : Host) (o : JigsawOptions) (img : HTMLImageElement)
    (s : JigsawPuzzle) (i : nat) (piece : JigsawPiece) :
  randomInRange h ->
  0 < canvasWidth s -> 0 < canvasHeight s -> 0 < maxRotation o ->
  init h o img = Some s ->
  pieces s !! i = Some piece ->
  (currentX piece
   = Math_random h (3 * i) * (canvasWidth s * (3 # 2)) - canvasWidth s * (1 # 4)
   /\ currentY piece
      = Math_random h (3 * i + 1) * (canvasHeight s * (3 # 2))
        - canvasHeight s * (1 # 4)
   /\ rotation piece = (Math_random h (3 * i + 2) * 2 - 1) * maxRotation o)
  /\ (- (1 # 4) * canvasWidth s <= currentX piece
      /\ currentX piece < (5 # 4) * canvasWidth s)
  /\ (- (1 # 4) * canvasHeight s <= currentY piece
      /\ currentY piece < (5 # 4) * canvasHeight s)
  /\ (- maxRotation o <= rotation piece /\ rotation piece < maxRotation o)
  /\ solved piece = false.
Proof.
  intros Hr Hcw Hch Hmr Hinit Hp.
  destruct (init_piece_origin h o img s i piece Hinit Hp)
    as (row & col & _ & _ & ->).
  cbv zeta in *.
  cbn [scatter currentX currentY rotation solved newPiece].
  destruct (Hr (3 * i)%nat) as [Hx0 Hx1].
  destruct (Hr (3 * i + 1)%nat) as [Hy0 Hy1].
  destruct (Hr (3 * i + 2)%nat) as [Hz0 Hz1].
  split; [repeat split |].
  repeat split; nra.
Qed.

(** What [animate] never touches, whatever the state. *)
Lemma advance_static (e : Q) (s s' : JigsawPuzzle) :
  advance e s = Some s' ->
  options s' = options s
  /\ image s' = image s
  /\ canvasWidth s' = canvasWidth s
  /\ canvasHeight s' = canvasHeight s
  /\ scaleFactor s' = scaleFactor s
  /\ randomCalls s' = randomCalls s
  /\ frameQueue s' = frameQueue s
  /\ lastHandle s' = lastHandle s
  /\ animationFrameId s' = animationFrameId s
  /\ timerText s' = timerText s
  /\ length (pieces s') = length (pieces s).
Proof.
  unfold advance. intros H.
  destruct (decide (currentSolvingIndex s < length (solvingOrder s))%nat);
    [| injection H as <-; repeat split].
  destruct (arrayGet (solvingOrder s) (currentSolvingIndex s)) as [idx |];
    [| discriminate].
  destruct (pieces s !! idx) as [piece |]; [| discriminate].
  destruct (Js.geb (progressAt s e) 1); injection H as <-;
    repeat split; cbn; apply length_insert.
Qed.

Lemma finish_static (e : Q) (s : JigsawPuzzle) :
  image (finish e s) = image s
  /\ canvasWidth (finish e s) = canvasWidth s
  /\ canvasHeight (finish e s) = canvasHeight s
  /\ scaleFactor (finish e s) = scaleFactor s
  /\ randomCalls (finish e s) = randomCalls s.
Proof.
  unfold finish. destruct (Js.ltb e (totalDuration (options s))).
  - repeat split.
  - destruct (truthy (animationFrameId s)); repeat split.
Qed.

Lemma frame_static (t : Q) (s s' : JigsawPuzzle) :
  frame t s s' ->
  options s' = options s
  /\ image s' = image s
  /\ canvasWidth s' = canvasWidth s
  /\ canvasHeight s' = canvasHeight s
  /\ scaleFactor s' = scaleFactor s
  /\ randomCalls s' = randomCalls s
  /\ length (pieces s') = length (pieces s).
Proof.
  intros [handle rest Hq Hani]. rewrite animate_painted in Hani.
  destruct (advance _ _) as [s2 |] eqn:Hadv; [| discriminate].
  injection Hani as <-.
  destruct (advance_static _ _ _ Hadv)
    as (Ao & Ai & Aw & Ah & Asf & Ar & _ & _ & _ & _ & Alen).
  destruct (finish_static (t - animationStartTime s) s2)
    as (Fi & Fw & Fh & Fsf & Fr).
  destruct (finish_fields (t - animationStartTime s) s2) as (Fo & Fp & _).
  rewrite Fo, Fi, Fw, Fh, Fsf, Fr, Fp, Ao, Ai, Aw, Ah, Asf, Ar, Alen.
  repeat split.
Qed.

Lemma init_randomCalls (h : Host) (o : JigsawOptions) (img : HTMLImageElement)
    (s : JigsawPuzzle) :
  init h o img = Some s ->
  randomCalls s = (3 * length (pieces s) + (length (pieces s) - 1))%nat.
Proof.
  intros Hinit. rewrite (init_pieces _ _ _ _ Hinit), scatterAll_length.
  rewrite (proj2 (init_steps _ _ _ _ Hinit)). cbv zeta.
  unfold startAnimation, setupSolvingOrder, shufflePieces, createPuzzlePieces.
  cbn [randomCalls requestAnimationFrame set_animationFrameId set_lastHandle
       set_frameQueue set_animationStartTime set_pieceMoveDuration
       set_randomCalls set_solvingOrder set_pieces pieces solvingOrder
       set_ctx set_canvasHeight set_canvasWidth set_scaleFactor construct
       options image scaleFactor].
  unfold indexArray. rewrite length_fmap, length_seq, scatterAll_length.
  reflexivity.
Qed.

(** X5.  In every state of the engine, [3 N + (N - 1)] random numbers have
    been drawn for [N] pieces, three per piece by the shuffle and [N - 1]
    by the scheduler: no frame calls [Math.random()], and none changes the
    options, the image, the canvas size or the scale factor. *)
Theorem frames_draw_no_random (h : Host) (o : JigsawOptions)
    (img : HTMLImageElement) (s0 s : JigsawPuzzle) (ts : list Q) :
  init h o img = Some s0 ->
  run ts s0 s ->
  randomCalls s = (3 * length (pieces s) + (length (pieces s) - 1))%nat
  /\ length (pieces s) = length (pieces s0)
  /\ options s = o
  /\ image s = image s0
  /\ canvasWidth s = canvasWidth s0
  /\ canvasHeight s = canvasHeight s0
  /\ scaleFactor s = scaleFactor s0.
Proof.
  intros Hinit Hrun.
  assert (options s = options s0 /\ image s = image s0
          /\ canvasWidth s = canvasWidth s0 /\ canvasHeight s = canvasHeight s0
          /\ scaleFactor s = scaleFactor s0 /\ randomCalls s = randomCalls s0
          /\ length (pieces s) = length (pieces s0))
    as (Ho & Hi & Hw & Hh & Hsf & Hr & Hlen).
  { clear Hinit. induction Hrun as [s | t ts s s1 s2 Hframe _ IH];
      [repeat split |].
    destruct (frame_static t s s1 Hframe) as (Fo & Fi & Fw & Fh & Fsf & Fr & Fl).
    destruct IH as (Io & Ii & Iw & Ih & Isf & Ir & Il).
    rewrite Io, Ii, Iw, Ih, Isf, Ir, Il, Fo, Fi, Fw, Fh, Fsf, Fr, Fl.
    repeat split. }
  rewrite Hr, Hlen, Ho, (init_options _ _ _ _ Hinit).
  split; [apply (init_randomCalls _ _ _ _ Hinit) |]. repeat split; assumption.
Qed.

(* ===================================================================== *)
(** ** Further properties: the life of the animation *)
(* ===================================================================== *)

Lemma frame_phase (t : Q) (s s' : JigsawPuzzle) :
  Running s -> frame t s s' ->
  (t - animationStartTime s < totalDuration (options s) -> Running s')
  /\ (totalDuration (options s) <= t - animationStartTime s -> Finished s').
Proof.
  intros (handle & Hq & Hid & Hlast & Hpos) [handle' rest Hq' Hani].
  rewrite Hq in Hq'. injection Hq' as <- <-.
  rewrite animate_painted in Hani.
  set (e := t - animationStartTime s) in *.
  destruct (advance e (painted e [] s)) as [s2 |] eqn:Hadv; [| discriminate].
  injection Hani as <-.
  destruct (advance_static _ _ _ Hadv)
    as (Ao & _ & _ & _ & _ & _ & Aq & Al & Aid & _ & _).
  change (options (painted e [] s)) with (options s) in Ao.
  change (frameQueue (painted e [] s)) with (@nil nat) in Aq.
  change (lastHandle (painted e [] s)) with (lastHandle s) in Al.
  change (animationFrameId (painted e [] s)) with (animationFrameId s) in Aid.
  split; intros He; rewrite <- Ao in He.
  - exists (S (lastHandle s2)). unfold finish.
    apply ltb_lt in He. rewrite He. cbn. rewrite Aq.
    repeat split. lia.
  - destruct (finish_done e s2 He) as (Dc & Dt & Dq).
    destruct (finish_fields e s2) as (_ & Fp & _).
    split; [exact (Dq Aq) |]. split; [rewrite Fp; exact Dc |].
    rewrite Dt. apply formatRemaining_zero, timerRemaining_zero. lra.
Qed.

Lemma Finished_stuck (s : JigsawPuzzle) :
  Finished s -> forall t s', ~ frame t s s'.
Proof.
  intros (Hq & _) t s' [handle rest Hq' _]. rewrite Hq in Hq'. discriminate.
Qed.

Lemma init_Running (h : Host) (o : JigsawOptions) (img : HTMLImageElement)
    (s : JigsawPuzzle) :
  init h o img = Some s -> Running s.
Proof.
  intros Hinit. exists 1%nat.
  destruct (init_animation _ _ _ _ Hinit) as (_ & _ & Hid & Hq & _).
  split; [exact Hq |]. split; [exact Hid |].
  split; [| lia]. rewrite (proj2 (init_steps _ _ _ _ Hinit)). reflexivity.
Qed.

Lemma reachable_phase (h : Host) (o : JigsawOptions) (img : HTMLImageElement)
    (s : JigsawPuzzle) :
  reachable h o img s -> Running s \/ Finished s.
Proof.
  intros (s0 & ts & Hinit & Hrun).
  pose proof (init_Running h o img s0 Hinit) as Hphase. clear Hinit.
  assert (Running s0 \/ Finished s0) as H by (left; exact Hphase).
  clear Hphase. induction Hrun as [s | t ts s s1 s2 Hframe _ IH]; [exact H |].
  apply IH. destruct H as [Hrunning | Hfinished].
  - destruct (frame_phase t s s1 Hrunning Hframe) as [Hlt Hge].
    destruct (Qlt_le_dec (t - animationStartTime s) (totalDuration (options s)));
      [left; apply Hlt | right; apply Hge]; assumption.
  - destruct (Finished_stuck s Hfinished t s1 Hframe).
Qed.


Lemma cancelAnimationFrame_idle (handle : nat) (s : JigsawPuzzle) :
  frameQueue s = [] -> cancelAnimationFrame handle s = s.
Proof.
  destruct s. cbn. intros ->. reflexivity.
Qed.

Lemma create_init (h : Host) (loadImage : string -> option HTMLImageElement)
    (o : JigsawOptions) (source : ImageOption) (s : JigsawPuzzle) :
  create h loadImage o source = Some s ->
  exists img, init h o img = Some s.
Proof.
  unfold create. destruct source as [img | url].
  - intros H. exists img. exact H.
  - destruct (loadImage url) as [img |]; [| discriminate].
    intros H. exists img. exact H.
Qed.

(** X7.  Once [init] has completed (for an image element at once, for a
    URL when the image is loaded), [destroy()] halts the animation in
    every state: it cancels the requested callback, so that no frame runs
    afterwards, and empties the container; it leaves the pieces and the
    index alone, and destroying twice is destroying once.  Before [init]
    has run its steps, which the constructor does not wait for,
    [destroy()] finds no callback to cancel and leaves the object as it
    is: [init] then starts the animation all the same.  An image that
    fails to load leaves nothing built. *)
Theorem destroy_halts (h : Host)
    (loadImage : string -> option HTMLImageElement) (o : JigsawOptions)
    (source : ImageOption) (s0 s : JigsawPuzzle) (ts : list Q)
    (children : list Node) :
  create h loadImage o source = Some s0 ->
  run ts s0 s ->
  let s' := fst (destroy s children) in
  (frameQueue s' = []
   /\ snd (destroy s children) = []
   /\ (forall t s'', ~ frame t s' s'')
   /\ pieces s' = pieces s
   /\ currentSolvingIndex s' = currentSolvingIndex s
   /\ destroy s' (snd (destroy s children)) = destroy s children)
  /\ (forall img,
        let loading := construct o img in
        destroy loading children = (loading, [])
        /\ initSteps h (fst (destroy loading children)) = init h o img
        /\ (forall s1, init h o img = Some s1 -> Running s1))
  /\ (forall url,
        loadImage url = None -> create h loadImage o (ImageUrl url) = None).
Proof.
  intros Hcreate Hrun s'.
  destruct (create_init h loadImage o source s0 Hcreate) as (img & Hinit).
  assert (reachable h o img s) as Hreach by (exists s0, ts; split; assumption).
  split; [| split].
  2: { intros img' loading. split; [reflexivity |]. split; [reflexivity |].
       intros s1 H1. apply (init_Running h o img' s1 H1). }
  2: { intros url Hurl. unfold create. rewrite Hurl. reflexivity. }
  assert (frameQueue s' = []) as Hq.
  { unfold s', destroy.
    destruct (reachable_phase h o img s Hreach)
      as [(handle & Hq & Hid & _ & Hpos) | (Hq & _)].
    - rewrite Hid. destruct handle as [| n]; [lia |].
      cbn. rewrite Hq. cbn. rewrite decide_False by (intros Hne; apply Hne; reflexivity).
      reflexivity.
    - cbn. destruct (truthy (animationFrameId s)); cbn; rewrite Hq; reflexivity. }
  split; [exact Hq |]. split; [reflexivity |].
  split.
  { intros t s'' [handle rest Hq' _]. rewrite Hq in Hq'. discriminate. }
  assert (pieces s' = pieces s /\ currentSolvingIndex s' = currentSolvingIndex s
          /\ animationFrameId s' = animationFrameId s) as (Hp & Hc & Hid).
  { unfold s', destroy. cbn.
    destruct (truthy (animationFrameId s)); repeat split. }
  split; [exact Hp |]. split; [exact Hc |].
  unfold destroy at 1. rewrite Hid. cbn [snd].
  pose proof (fun handle => cancelAnimationFrame_idle handle s' Hq) as Hcancel.
  change (fst (destroy s children)) with s'.
  destruct (truthy (animationFrameId s)) eqn:Htruthy.
  - rewrite Hcancel. unfold s', destroy. rewrite Htruthy. reflexivity.
  - unfold s', destroy. rewrite Htruthy. reflexivity.
Qed.

Lemma solvedCount_unsolved (ps : list JigsawPiece) :
  Forall (fun piece => solved piece = false) ps -> solvedCount ps = 0%nat.
Proof.
  unfold solvedCount. induction 1 as [| p ps Hp _ IH]; [reflexivity |].
  simpl. rewrite Hp. exact IH.
Qed.

Lemma solvedCount_insert (ps : list JigsawPiece) (idx : nat)
    (piece : JigsawPiece) :
  ps !! idx = Some piece -> solved piece = false ->
  solvedCount (<[idx := markSolved piece]> ps) = S (solvedCount ps).
Proof.
  unfold solvedCount. revert idx.
  induction ps as [| p ps IH]; intros idx Hp Hs; [discriminate |].
  destruct idx as [| idx]; simpl in *.
  - injection Hp as ->. rewrite Hs. reflexivity.
  - destruct (solved p); simpl; rewrite (IH idx Hp Hs); reflexivity.
Qed.

Lemma run_solvedCount (h : Host) (o : JigsawOptions) (order : list nat)
    (ts : list Q) (s s' : JigsawPuzzle) :
  Invariant h o order s ->
  solvedCount (pieces s) = currentSolvingIndex s ->
  run ts s s' ->
  solvedCount (pieces s') = currentSolvingIndex s'
  /\ (currentSolvingIndex s' <= currentSolvingIndex s + length ts)%nat.
Proof.
  intros Hinv Hcount Hrun.
  induction Hrun as [s | t ts s s1 s2 Hframe _ IH]; [split; [exact Hcount | lia] |].
  destruct (frame_outcome h o order s s1 t Hinv Hframe)
    as (_ & active & Htr & _).
  assert (solvedCount (pieces s1) = currentSolvingIndex s1
          /\ (currentSolvingIndex s1 <= S (currentSolvingIndex s))%nat)
    as [Hcount1 Hle].
  { destruct Htr as [(_ & _ & -> & ->) | (idx & piece & _ & Hp & Hs & _ & Hcase)];
      [split; [exact Hcount | lia] |].
    destruct Hcase as [(_ & -> & ->) | (_ & -> & ->)];
      [split; [exact Hcount | lia] |].
    rewrite (solvedCount_insert _ _ _ Hp Hs), Hcount. split; lia. }
  destruct (IH (frame_invariant h o order s s1 t Hinv Hframe) Hcount1)
    as [Hc2 Hle2].
  split; [exact Hc2 |]. simpl. lia.
Qed.

(** X8.  A frame completes at most one piece: after any run, the number
    of solved pieces is [currentSolvingIndex], which exceeds neither the
    number of frames run nor the number of pieces. *)
Theorem one_piece_per_frame (h : Host) (o : JigsawOptions)
    (img : HTMLImageElement) (s0 s : JigsawPuzzle) (ts : list Q) :
  randomInRange h ->
  init h o img = Some s0 ->
  run ts s0 s ->
  solvedCount (pieces s) = currentSolvingIndex s
  /\ (currentSolvingIndex s <= length ts)%nat
  /\ (currentSolvingIndex s <= length (pieces s))%nat.
Proof.
  intros Hr Hinit Hrun.
  destruct (init_invariant h o img s0 Hr Hinit) as (order & Hinv).
  assert (solvedCount (pieces s0) = currentSolvingIndex s0) as H0.
  { rewrite (proj1 (init_animation _ _ _ _ Hinit)).
    apply solvedCount_unsolved, Forall_lookup. intros i piece Hp.
    exact (init_unsolved h o img s0 i piece Hinit Hp). }
  destruct (run_solvedCount h o order ts s0 s Hinv H0 Hrun) as [Hc Hle].
  rewrite (proj1 (init_animation _ _ _ _ Hinit)) in Hle.
  pose proof (run_invariant h o order ts s0 s Hinv Hrun) as Hinv'.
  pose proof (inv_index _ _ _ _ Hinv') as Hidx.
  pose proof (Permutation_length (inv_perm _ _ _ _ Hinv')) as Hlen.
  rewrite length_seq in Hlen.
  split; [exact Hc |]. split; lia.
Qed.

(** X10.  An empty grid ([rows = 0] or [cols = 0]) is no error: [init]
    builds a puzzle without pieces and with an empty solving order, and
    every frame of its run draws nothing and leaves the index at 0. *)
Theorem empty_grid_runs (h : Host) (o : JigsawOptions) (img : HTMLImageElement)
    (s0 s : JigsawPuzzle) (ts : list Q) :
  rows o = 0%nat \/ cols o = 0%nat ->
  init h o img = Some s0 ->
  run ts s0 s ->
  pieces s = [] /\ solvingOrder s = [] /\ currentSolvingIndex s = 0%nat
  /\ ctx s = [].
Proof.
  intros Hempty Hinit Hrun.
  assert (pieces s0 = []) as Hp0.
  { apply length_zero_iff_nil.
    pose proof (init_pieces_bound h o img s0 Hinit) as H.
    destruct Hempty as [E | E]; rewrite E in H; lia. }
  assert (solvingOrder s0 = []) as Ho0.
  { rewrite (init_solvingOrder _ _ _ _ Hinit), Hp0. reflexivity. }
  destruct (init_animation _ _ _ _ Hinit) as (Hcsi0 & Hst0 & _ & Hq0 & Hctx0).
  assert (Invariant h o [] s0) as Hinv0.
  { split.
    - apply (init_options _ _ _ _ Hinit).
    - exact Hst0.
    - exact Ho0.
    - rewrite Hp0. reflexivity.
    - rewrite Hcsi0. simpl. lia.
    - intros k i piece Hk. rewrite lookup_nil in Hk. discriminate.
    - apply (init_pieceMoveDuration _ _ _ _ Hinit).
    - rewrite Hq0. simpl. lia. }
  clear Hinit Hst0 Hq0.
  induction Hrun as [s | t ts s s1 s2 Hframe _ IH];
    [repeat split; assumption |].
  destruct (frame_outcome h o [] s s1 t Hinv0 Hframe)
    as ((_ & Hso & _) & active & Htr & Hout).
  destruct Htr as [(_ & -> & Hp & Hc) | (idx & piece & Hact & _)];
    [| rewrite lookup_nil in Hact; discriminate].
  apply IH.
  - rewrite Hp. exact Hp0.
  - rewrite Hso. exact Ho0.
  - rewrite Hc. exact Hcsi0.
  - destruct Hout as [(_ & -> & _) | (_ & -> & _)];
      [rewrite Hp0 | rewrite Hp, Hp0]; reflexivity.
  - exact (frame_invariant h o [] s s1 t Hinv0 Hframe).
Qed.

(** X11.  An image that fits the maximum box is shown at its own size:
    [scaleFactor] is 1 and the canvas has the dimensions of the image
    (their integer parts).  One that does not fit is scaled down,
    [scaleFactor] being the lesser of the two ratios and below 1. *)
Theorem scale_to_fit (h : Host) (o : JigsawOptions) (img : HTMLImageElement)
    (s : JigsawPuzzle) :
  0 < image_width img -> 0 < image_height img ->
  0 < maxWidth o -> 0 < maxHeight o ->
  init h o img = Some s ->
  let widthRatio := maxWidth o / image_width img in
  let heightRatio := maxHeight o / image_height img in
  (image_width img <= maxWidth o -> image_height img <= maxHeight o ->
   scaleFactor s == 1
   /\ (image_width img < 2147483648 ->
       canvasWidth s = inject_Z (Qfloor (image_width img)))
   /\ (image_height img < 2147483648 ->
       canvasHeight s = inject_Z (Qfloor (image_height img))))
  /\ (maxWidth o < image_width img \/ maxHeight o < image_height img ->
      scaleFactor s < 1
      /\ scaleFactor s == Qmin widthRatio heightRatio).
Proof.
  intros Hw Hh Hmw Hmh Hinit rw rh.
  destruct (init_canvas _ _ _ _ Hinit) as [-> ->].
  rewrite (init_scaleFactor _ _ _ _ Hinit). cbv zeta.
  unfold scaleFactorOf. cbv zeta. fold rw rh.
  destruct (Math_min_least rw rh 1) as (L1 & L2 & L3).
  pose proof (Math_min_attained rw rh 1) as Hatt.
  split.
  - intros Hfw Hfh.
    assert (1 <= rw) as H1 by (unfold rw; apply Qle_shift_div_l; lra).
    assert (1 <= rh) as H2 by (unfold rh; apply Qle_shift_div_l; lra).
    assert (Js.Math_min rw rh 1 == 1) as E.
    { destruct Hatt as [E | [E | E]]; [| | exact E];
        apply Qle_antisym; rewrite ?E; lra. }
    split; [exact E |].
    assert (forall x, x * Js.Math_min rw rh 1 == x) as Ex
      by (intros x; rewrite E; ring).
    split; intros Hb.
    + rewrite canvasDimension_floor by (rewrite Ex; lra).
      rewrite (Qfloor_comp _ _ (Ex _)). reflexivity.
    + rewrite canvasDimension_floor by (rewrite Ex; lra).
      rewrite (Qfloor_comp _ _ (Ex _)). reflexivity.
  - intros Hbig.
    assert (rw < 1 \/ rh < 1) as Hsmall.
    { destruct Hbig as [Hb | Hb]; [left | right];
        apply Qlt_shift_div_r; lra. }
    pose proof (Q.le_min_l rw rh). pose proof (Q.le_min_r rw rh).
    assert (Qmin rw rh < 1) as Hlt by (destruct Hsmall; lra).
    unfold Js.Math_min in *.
    split; [apply Qle_lt_trans with (Qmin rw rh); [apply Q.le_min_l | exact Hlt] |].
    apply Q.min_l. lra.
Qed.


(* ===================================================================== *)
(** ** Further properties: the countdown *)
(* ===================================================================== *)

(** X15.  The countdown shows the remaining time rounded down to the whole
    second: with [shown = 60 * minutes + seconds],
    [1000 * shown <= remaining < 1000 * shown + 1000], the minutes are
    [shown / 60] and the seconds [shown mod 60]; so two frames within the
    same second show the same text. *)
Theorem countdown_whole_seconds (total : Q) :
  (forall elapsed,
     let remaining := timerRemaining total elapsed in
     let shown := shownSeconds total elapsed in
     inject_Z (1000 * shown) <= remaining
     /\ remaining < inject_Z (1000 * shown + 1000)
     /\ timerMinutes remaining = (shown / 60)%Z
     /\ timerSeconds remaining = (shown mod 60)%Z)
  /\ (forall e1 e2,
        shownSeconds total e1 = shownSeconds total e2 ->
        timerTextAt total e1 = timerTextAt total e2).
Proof.
  assert (forall elapsed,
            timerMinutes (timerRemaining total elapsed)
            = (shownSeconds total elapsed / 60)%Z
            /\ timerSeconds (timerRemaining total elapsed)
               = (shownSeconds total elapsed mod 60)%Z) as Hdm.
  { intros elapsed.
    destruct (minutes_seconds _ (timerRemaining_nonneg total elapsed))
      as (Hm & Hs & _).
    unfold shownSeconds. cbv zeta.
    set (m := timerMinutes _) in *. set (sec := timerSeconds _) in *.
    assert ((60 * m + sec) / 60 = m)%Z as Ed
      by (symmetry; apply (Z.div_unique_pos _ 60 m sec); lia).
    assert ((60 * m + sec) mod 60 = sec)%Z as Em
      by (symmetry; apply (Z.mod_unique_pos _ 60 m sec); lia).
    rewrite Ed, Em. split; reflexivity. }
  split.
  - intros elapsed remaining shown.
    pose proof (timerRemaining_nonneg total elapsed) as Hr. fold remaining in Hr.
    unfold shown. rewrite shownSeconds_floor. fold remaining.
    pose proof (Qfloor_le (remaining / 1000)) as Hlo.
    pose proof (Qlt_floor (remaining / 1000)) as Hhi.
    assert (remaining / 1000 == remaining * (1 # 1000)) as E by field.
    set (f := Qfloor (remaining / 1000)) in *.
    rewrite inject_Z_plus in Hhi. rewrite E in Hlo, Hhi.
    rewrite inject_Z_plus, inject_Z_mult.
    change (inject_Z 1) with 1 in Hhi. change (inject_Z 1000) with 1000.
    split; [lra |]. split; [lra |].
    subst f remaining. rewrite <- shownSeconds_floor. apply Hdm.
  - intros e1 e2 Heq. unfold timerTextAt, formatRemaining.
    destruct (Hdm e1) as [-> ->]. destruct (Hdm e2) as [-> ->].
    rewrite Heq. reflexivity.
Qed.

(* ===================================================================== *)
(** ** Further properties: the drawing context *)
(* ===================================================================== *)



(* ===================================================================== *)
(** ** Further properties: the page *)
(* ===================================================================== *)

Lemma prefix_app (p s : string) :
  String.prefix p s = true <-> exists b, s = (p ++ b)%string.
Proof.
  revert s. induction p as [| c p IH]; intros s.
  - split; [intros _; exists s; reflexivity | intros _; destruct s; reflexivity].
  - destruct s as [| c' s]; simpl;
      [split; [discriminate | intros [b Hb]; discriminate] |].
    destruct (ascii_dec c c') as [<- | Hne].
    + rewrite IH. split.
      * intros [b ->]. exists b. reflexivity.
      * intros [b [= ->]]. exists b. reflexivity.
    + split; [discriminate |]. intros [b [= E _]]. congruence.
Qed.

Lemma includes_app (s sub : string) :
  Catalog.includes s sub = true <-> exists a b, s = (a ++ sub ++ b)%string.
Proof.
  induction s as [| c s IH]; cbn [Catalog.includes].
  - destruct (String.prefix sub EmptyString) eqn:Hp.
    + split; [intros _ | reflexivity].
      apply prefix_app in Hp as [b Hb]. exists EmptyString, b. exact Hb.
    + split; [discriminate |]. intros (a & b & Hab).
      destruct a; [| discriminate].
      assert (String.prefix sub EmptyString = true) as Hp'
        by (apply prefix_app; exists b; exact Hab).
      congruence.
  - destruct (String.prefix sub (String c s)) eqn:Hp.
    + split; [intros _ | reflexivity].
      apply prefix_app in Hp as [b Hb]. exists EmptyString, b. exact Hb.
    + rewrite IH. split.
      * intros (a & b & ->). exists (String c a), b. reflexivity.
      * intros (a & b & Hab). destruct a as [| c' a].
        -- assert (String.prefix sub (String c s) = true) as Hp'
             by (apply prefix_app; exists b; exact Hab).
           congruence.
        -- injection Hab as -> ->. exists a, b. reflexivity.
Qed.

Lemma lookupModule_In (imageModules : Catalog.ImageModules) (key : string) :
  In key (map fst imageModules) ->
  exists v, Catalog.lookupModule imageModules key = Some v
            /\ In (key, v) imageModules.
Proof.
  induction imageModules as [| [k v] rest IH]; [intros [] |].
  cbn [map fst In Catalog.lookupModule].
  destruct (String.eqb k key) eqn:E.
  - intros _. apply String.eqb_eq in E as ->. exists v. split; [reflexivity | left; reflexivity].
  - intros [Hk | Hin]; [subst k; rewrite String.eqb_refl in E; discriminate |].
    destruct (IH Hin) as (v' & Hv & Hin'). exists v'. split; [exact Hv | right; exact Hin'].
Qed.

(** X17.  The theme defaults to ["/"] when the query has no ["theme"]
    parameter, and is the parameter otherwise.  When some key contains the
    theme, the key chosen is one of the catalogue that contains the theme,
    and the image is the export under that key; when none does, the key
    and the image are [undefined]. *)
Theorem image_choice (urlParams : Page.URLSearchParams) (random : Q)
    (imageModules : Catalog.ImageModules) :
  0 <= random -> random < 1 ->
  let theme := Catalog.theme urlParams in
  (Page.get urlParams "theme" = None -> theme = "/"%string)
  /\ (forall v, Page.get urlParams "theme" = Some v -> theme = v)
  /\ (Catalog.themeImageModuleKeys imageModules theme <> [] ->
      exists key img,
        Catalog.themeImageModuleKey random imageModules theme = Some key
        /\ In key (map fst imageModules)
        /\ (exists a b, key = (a ++ theme ++ b)%string)
        /\ Catalog.image random imageModules theme = Some img
        /\ In (key, img) imageModules)
  /\ (Catalog.themeImageModuleKeys imageModules theme = [] ->
      Catalog.themeImageModuleKey random imageModules theme = None
      /\ Catalog.image random imageModules theme = None).
Proof.
  intros H0 H1 theme.
  split; [unfold theme, Catalog.theme; intros ->; reflexivity |].
  split; [unfold theme, Catalog.theme; intros v ->; reflexivity |].
  split.
  - intros Hne. unfold Catalog.image, Catalog.themeImageModuleKey. cbv zeta.
    set (keys := Catalog.themeImageModuleKeys imageModules theme) in *.
    assert (0 < length keys)%nat as Hlen
      by (destruct keys; [congruence | simpl; lia]).
    assert (Z.to_nat (Js.Math_floor (random * Js.of_nat (length keys)))
            < length keys)%nat as Hidx.
    { pose proof (floor_pick random (length keys - 1) H0 H1) as Hp.
      replace (length keys - 1 + 1)%nat with (length keys) in Hp by lia. lia. }
    destruct (lookup_lt_is_Some_2 keys _ Hidx) as [key Hkey].
    rewrite Hkey.
    assert (In key keys) as Hin
      by (apply list_elem_of_In; eapply list_elem_of_lookup_2; exact Hkey).
    unfold keys, Catalog.themeImageModuleKeys in Hin.
    apply filter_In in Hin as [Hin Hinc].
    destruct (lookupModule_In imageModules key Hin) as (img & Himg & Hpair).
    exists key, img. split; [reflexivity |]. split; [exact Hin |].
    split; [apply includes_app; exact Hinc |]. split; assumption.
  - intros Hnil. unfold Catalog.image, Catalog.themeImageModuleKey. cbv zeta.
    rewrite Hnil. split; reflexivity.
Qed.

Ltac eval_chars :=
  repeat match goal with
         | |- context [Page.isWhiteSpace ?c] =>
             let v := eval vm_compute in (Page.isWhiteSpace c) in
             change (Page.isWhiteSpace c) with v
         | |- context [Page.digitValue ?r ?c] =>
             let v := eval vm_compute in (Page.digitValue r c) in
             change (Page.digitValue r c) with v
         end.

Lemma digits_uint (d : Decimal.uint) (a : Z) :
  Page.digits 10 (Some a) (NilEmpty.string_of_uint d) = Some (uintValue d a).
Proof.
  revert a. induction d; intros a; try reflexivity;
    cbn [NilEmpty.string_of_uint Page.digits uintValue]; eval_chars;
    cbn [default]; change (Z.of_nat 10) with 10%Z; apply IHd.
Qed.

Lemma parseInt_uint (d : Decimal.uint) :
  d <> Decimal.Nil ->
  Page.parseInt (Some (NilEmpty.string_of_uint d))
  = Page.Number (Page.Num (inject_Z (1 * uintValue d 0)))
  /\ Page.parseInt (Some (String "-" (NilEmpty.string_of_uint d)))
     = Page.Number (Page.Num (inject_Z (-1 * uintValue d 0))).
Proof.
  intros Hd.
  destruct d as [| d | d | d | d | d | d | d | d | d | d]; try congruence;
    (destruct d as [| d | d | d | d | d | d | d | d | d | d];
     split; unfold Page.parseInt, Page.ToString;
     cbn [NilEmpty.string_of_uint Page.trimStart]; eval_chars;
     cbv beta iota zeta; cbn [Page.digits]; eval_chars; cbv beta iota;
     cbn [default uintValue]; change (Z.of_nat 10) with 10%Z;
     rewrite ?digits_uint; reflexivity).
Qed.

Lemma uintValue_acc (d : Decimal.uint) (acc : positive) :
  Zpos (Pos.of_uint_acc d acc) = uintValue d (Zpos acc).
Proof.
  revert acc. induction d; intros acc; cbn [Pos.of_uint_acc uintValue];
    try reflexivity; rewrite IHd; f_equal; lia.
Qed.

Lemma uintValue_of_uint (d : Decimal.uint) :
  Z.of_N (Pos.of_uint d) = uintValue d 0.
Proof.
  induction d; cbn [Pos.of_uint uintValue]; try reflexivity; try exact IHd;
    cbn [Z.of_N]; rewrite uintValue_acc; reflexivity.
Qed.

Lemma parseInt_toString (n : Z) :
  Page.parseInt (Some (Js.toString n)) = Page.Number (Page.Num (inject_Z n)).
Proof.
  unfold Js.toString. destruct n as [| p | p]; [reflexivity | |];
    cbn [Z.to_int NilZero.string_of_int];
    pose proof (Unsigned.to_uint_nonnil p) as Hnil;
    pose proof (Unsigned.of_to p) as Hof;
    destruct (parseInt_uint (Pos.to_uint p) Hnil) as [Hpos Hneg];
    pose proof (uintValue_of_uint (Pos.to_uint p)) as Hv; rewrite Hof in Hv;
    cbn [Z.of_N] in Hv; unfold NilZero.string_of_uint;
    destruct (Pos.to_uint p) eqn:E; try congruence;
    rewrite ?Hpos, ?Hneg, <- Hv; f_equal; f_equal; f_equal; lia.
Qed.

(** X18.  A ["minutes"] parameter written as a decimal integer [n] is read
    back as that integer, and the puzzle runs for that many minutes:
    [totalDuration = n * 60000], as long as the product is within the
    integers that binary64 holds exactly (up to 2^53).  Nothing else bounds
    the number: zero and negative durations are passed on as they are.  Of
    several ["minutes"] parameters the first is read. *)
Theorem minutes_round_trip (urlParams : Page.URLSearchParams) (n : Z) :
  (Z.abs n * 60000 <= 2 ^ 53)%Z ->
  Page.get urlParams "minutes" = Some (Js.toString n) ->
  Page.minutes urlParams = Page.Number (Page.Num (inject_Z n))
  /\ Page.totalDuration (Page.puzzleOptions urlParams)
     = Page.Num (inject_Z n * 60000)
  /\ (forall later,
        Page.minutes (urlParams ++ later) = Page.minutes urlParams).
Proof.
  intros _ Hget.
  assert (Page.minutes urlParams = Page.Number (Page.Num (inject_Z n))) as Hmin.
  { unfold Page.minutes. rewrite Hget, parseInt_toString. reflexivity. }
  split; [exact Hmin |]. split.
  - unfold Page.puzzleOptions. cbn [Page.totalDuration]. rewrite Hmin.
    reflexivity.
  - intros later. unfold Page.minutes.
    assert (Page.get (urlParams ++ later) "minutes"
            = Page.get urlParams "minutes") as ->; [| reflexivity].
    rewrite Hget. clear Hmin.
    induction urlParams as [| [k v] rest IH]; [discriminate |].
    cbn [app Page.get] in *.
    destruct (String.eqb k "minutes"); [exact Hget | apply IH, Hget].
Qed.

(* ===================================================================== *)
(** ** Further properties: the solving orders that can come out *)
(* ===================================================================== *)

Lemma exchange_lookup (a : list nat) (i j : nat) (x y : nat) :
  a !! i = Some x -> a !! j = Some y ->
  exchange a i j !! i = Some y
  /\ exchange a i j !! j = Some x
  /\ (forall k, k <> i -> k <> j -> exchange a i j !! k = a !! k).
Proof.
  intros Hi Hj. unfold exchange. rewrite Hi, Hj.
  pose proof (lookup_lt_Some _ _ _ Hi) as Hli.
  pose proof (lookup_lt_Some _ _ _ Hj) as Hlj.
  split; [| split].
  - destruct (decide (i = j)) as [-> | Hne].
    + rewrite list_lookup_insert_eq by (rewrite length_insert; exact Hli).
      congruence.
    + rewrite list_lookup_insert_ne by congruence.
      apply list_lookup_insert_eq. exact Hli.
  - apply list_lookup_insert_eq. rewrite length_insert. exact Hlj.
  - intros k Hki Hkj.
    rewrite !list_lookup_insert_ne by congruence. reflexivity.
Qed.

Lemma fisherYates_reaches (target : list nat) (i : nat) (a : list nat) :
  NoDup target -> a ≡ₚ target -> (i < length a)%nat ->
  (forall k, (i < k)%nat -> a !! k = target !! k) ->
  exists pick, (forall m, (pick m <= m)%nat) /\ fisherYates pick i a = target.
Proof.
  intros Hnd. revert a. induction i as [| i IH]; intros a Hperm Hi Hfix.
  - exists (fun _ => 0%nat). split; [intros m; lia |]. cbn [fisherYates].
    pose proof (Permutation_length Hperm) as Hlen.
    apply list_eq. intros k. destruct k as [| k]; [| apply Hfix; lia].
    destruct a as [| x a']; [simpl in Hi; lia |].
    destruct target as [| y t']; [discriminate |].
    assert (a' = t') as ->
      by (apply list_eq; intros k; apply (Hfix (S k)); lia).
    simpl. f_equal.
    assert (x ∈ y :: t') as Hin by (rewrite <- Hperm; left).
    apply elem_of_cons in Hin as [-> | Hin]; [reflexivity |].
    assert (NoDup (x :: t')) as Hnd' by (rewrite Hperm; exact Hnd).
    apply NoDup_cons in Hnd' as [Hnot _]. contradiction.
  - pose proof (Permutation_length Hperm) as Hlen.
    destruct (lookup_lt_is_Some_2 target (S i) ltac:(lia)) as [y Hy].
    destruct (lookup_lt_is_Some_2 a (S i) Hi) as [x Hx].
    assert (y ∈ a) as Hin
      by (rewrite Hperm; eapply list_elem_of_lookup_2; exact Hy).
    apply list_elem_of_lookup in Hin as [j Hj].
    assert (j <= S i)%nat as Hle.
    { destruct (le_lt_dec j (S i)) as [Hle | Hgt]; [exact Hle | exfalso].
      rewrite (Hfix j Hgt) in Hj.
      pose proof (NoDup_lookup target j (S i) y Hnd Hj Hy). lia. }
    destruct (exchange_lookup a (S i) j x y Hx Hj) as (Ei & Ej & Eother).
    destruct (IH (exchange a (S i) j)) as (pick & Hpick & Hres).
    + rewrite exchange_Permutation. exact Hperm.
    + rewrite exchange_length. lia.
    + intros k Hk. destruct (decide (k = S i)) as [-> | Hne].
      * rewrite Ei, Hy. reflexivity.
      * rewrite Eother by lia. apply Hfix. lia.
    + exists (fun m => if decide (m = S i) then j else pick m).
      split.
      * intros m. destruct (decide (m = S i)) as [-> | _]; [exact Hle | apply Hpick].
      * cbn [fisherYates]. rewrite decide_True by reflexivity.
        rewrite <- Hres. apply fisherYates_ext. intros m Hm.
        apply decide_False. lia.
Qed.

Lemma floor_fraction (j i : nat) :
  (j <= i)%nat ->
  Z.to_nat (Js.Math_floor (Js.of_nat j / Js.of_nat (i + 1) * Js.of_nat (i + 1)))
  = j.
Proof.
  intros Hle. unfold Js.Math_floor.
  pose proof (of_nat_pos (i + 1) ltac:(lia)) as Hpos.
  rewrite (Qfloor_comp _ (inject_Z (Z.of_nat j)))
    by (unfold Js.of_nat at 1 3; fold (Js.of_nat (i + 1)); field; lra).
  rewrite Qfloor_Z. apply Nat2Z.id.
Qed.

Lemma hostPicking_inRange (h : Host) (k n : nat) (pick : nat -> nat) :
  (forall m, (pick m <= m)%nat) -> randomInRange (hostPicking h k n pick).
Proof.
  intros Hpick m. cbn [Math_random hostPicking].
  destruct (decide (m < k)%nat); [split; [discriminate | reflexivity] |].
  set (i := (n - 1 - (m - k))%nat).
  pose proof (of_nat_pos (i + 1) ltac:(lia)) as Hpos.
  pose proof (of_nat_nonneg (pick i)) as H0.
  pose proof (of_nat_le (S (pick i)) (i + 1) ltac:(specialize (Hpick i); lia))
    as H1.
  rewrite of_nat_S in H1.
  split.
  - apply Qle_shift_div_l; [exact Hpos | lra].
  - apply Qlt_shift_div_r; [exact Hpos | lra].
Qed.

Lemma init_hostPicking_pieces (h : Host) (o : JigsawOptions)
    (img : HTMLImageElement) (s : JigsawPuzzle) (k n : nat)
    (pick : nat -> nat) :
  init h o img = Some s ->
  exists s',
    init (hostPicking h k n pick) o img = Some s'
    /\ length (pieces s') = length (pieces s).
Proof.
  intros Hinit.
  pose proof (proj1 (init_steps _ _ _ _ Hinit)) as Hctx.
  destruct (init_succeeds (hostPicking h k n pick) o img Hctx)
    as (s' & Hinit').
  exists s'. split; [exact Hinit' |].
  rewrite <- (length_fmap (fun piece => canvas_cell (canvas piece)) (pieces s')).
  rewrite <- (length_fmap (fun piece => canvas_cell (canvas piece)) (pieces s)).
  rewrite (init_pieces_cells _ _ _ _ Hinit'), (init_pieces_cells _ _ _ _ Hinit).
  reflexivity.
Qed.

(** X19.  No solving order is excluded: for every permutation of the
    piece indices there are results of [Math.random()], all in [[0, 1)],
    for which [init] builds that solving order. *)
Theorem every_order_possible (h : Host) (o : JigsawOptions)
    (img : HTMLImageElement) (s : JigsawPuzzle) (target : list nat) :
  init h o img = Some s ->
  target ≡ₚ seq 0 (length (pieces s)) ->
  exists h' s',
    getContext h' = getContext h
    /\ performance_now h' = performance_now h
    /\ randomInRange h'
    /\ init h' o img = Some s'
    /\ length (pieces s') = length (pieces s)
    /\ solvingOrder s' = Some <$> target.
Proof.
  intros Hinit Hperm.
  set (N := length (pieces s)) in *.
  assert (NoDup target) as Hnd by (rewrite Hperm; apply NoDup_seq).
  destruct N as [| n] eqn:HN.
  - apply Permutation_nil_r in Hperm. subst target.
    destruct (init_hostPicking_pieces h o img s 0 0 (fun _ => 0%nat) Hinit)
      as (s' & Hinit' & Hlen).
    exists (hostPicking h 0 0 (fun _ => 0%nat)), s'.
    split; [reflexivity |]. split; [reflexivity |].
    split; [apply hostPicking_inRange; intros m; lia |].
    split; [exact Hinit' |]. fold N in Hlen. rewrite HN in Hlen.
    split; [exact Hlen |].
    rewrite (init_solvingOrder _ _ _ _ Hinit'), Hlen. reflexivity.
  - destruct (fisherYates_reaches target n (seq 0 (S n)) Hnd)
      as (pick & Hpick & Hres).
    + symmetry. exact Hperm.
    + rewrite length_seq. lia.
    + intros k Hk. rewrite lookup_ge_None_2 by (rewrite length_seq; lia).
      symmetry. apply lookup_ge_None_2.
      rewrite (Permutation_length Hperm), length_seq. lia.
    + set (k0 := (3 * length (slicePieces h (rows o) (cols o) (image_width img)
                           (image_height img)
                           (scaleFactorOf (maxWidth o) (maxHeight o)
                              (image_width img) (image_height img))))%nat).
      destruct (init_hostPicking_pieces h o img s k0 (S n) pick Hinit)
        as (s' & Hinit' & Hlen).
      pose proof (hostPicking_inRange h k0 (S n) pick Hpick) as Hr.
      exists (hostPicking h k0 (S n) pick), s'.
      split; [reflexivity |]. split; [reflexivity |].
      split; [exact Hr |]. split; [exact Hinit' |].
      fold N in Hlen. rewrite HN in Hlen. split; [exact Hlen |].
      rewrite (init_solvingOrder _ _ _ _ Hinit'), Hlen.
      set (k1 := (3 * length _)%nat).
      assert (k1 = k0) as -> by reflexivity.
      replace (S n - 1)%nat with n by lia. unfold indexArray.
      rewrite (shuffleOrder_fisherYates _ n k0 (seq 0 (S n)) Hr)
        by (rewrite length_seq; lia).
      f_equal. rewrite <- Hres. apply fisherYates_ext. intros i Hi.
      unfold picked. cbn [Math_random hostPicking].
      rewrite decide_False by lia.
      replace (S n - 1 - (k0 + (S n - 1 - i) - k0))%nat with i by lia.
      apply floor_fraction, Hpick.
Qed.

(* ===================================================================== *)
(** ** The further properties on the small puzzle *)
(* ===================================================================== *)

Lemma demo_run : run [16; 2048] demoStart demoEnd.
Proof.
  apply (run_cons 16 [2048] demoStart demoNext); [exact demo_frame |].
  apply (run_cons 2048 [] demoNext demoEnd); [exact demo_last | constructor].
Qed.

Lemma demo_empty_init :
  init demoHost demoEmptyOptions demoImage = Some demoEmptyStart.
Proof. vm_compute. reflexivity. Qed.

Lemma pieces_follow_contexts_witness :
  (length (pieces demoStart) <= rows demoOptions * cols demoOptions)%nat.
Proof.
  destruct (pieces_follow_contexts demoHost demoOptions demoImage demoStart)
    as (_ & Hlen & _).
  - exact demo_init.
  - exact Hlen.
Defined.

Lemma scatter_ranges_witness :
  exists piece,
    pieces demoStart !! 1%nat = Some piece
    /\ - maxRotation demoOptions <= rotation piece
    /\ rotation piece < maxRotation demoOptions.
Proof.
  destruct (pieces demoStart !! 1%nat) as [piece |] eqn:Hp;
    [| vm_compute in Hp; discriminate Hp].
  exists piece. split; [reflexivity |].
  destruct (scatter_ranges demoHost demoOptions demoImage demoStart 1 piece)
    as (_ & _ & _ & Hrot & _).
  - exact demo_random.
  - vm_compute. reflexivity.
  - vm_compute. reflexivity.
  - reflexivity.
  - exact demo_init.
  - exact Hp.
  - exact Hrot.
Defined.

Lemma frames_draw_no_random_witness :
  randomCalls demoEnd
  = (3 * length (pieces demoEnd) + (length (pieces demoEnd) - 1))%nat.
Proof.
  destruct (frames_draw_no_random demoHost demoOptions demoImage
              demoStart demoEnd [16; 2048]) as (Hcalls & _).
  - exact demo_init.
  - exact demo_run.
  - exact Hcalls.
Defined.


Lemma destroy_halts_witness :
  frameQueue (fst (destroy demoStart [CanvasNode; TimerNode])) = [].
Proof.
  destruct (destroy_halts demoHost (fun _ => Some demoImage) demoOptions
              (ImageUrl "/assets/1.jpg") demoStart demoStart []
              [CanvasNode; TimerNode]) as ((Hq & _) & _).
  - vm_compute. reflexivity.
  - constructor.
  - exact Hq.
Defined.

Lemma one_piece_per_frame_witness :
  solvedCount (pieces demoEnd) = currentSolvingIndex demoEnd.
Proof.
  destruct (one_piece_per_frame demoHost demoOptions demoImage
              demoStart demoEnd [16; 2048]) as (Hcount & _).
  - exact demo_random.
  - exact demo_init.
  - exact demo_run.
  - exact Hcount.
Defined.

Lemma empty_grid_runs_witness : pieces demoEmptyStart = [].
Proof.
  destruct (empty_grid_runs demoHost demoEmptyOptions demoImage
              demoEmptyStart demoEmptyStart []) as (Hp & _).
  - left. reflexivity.
  - exact demo_empty_init.
  - constructor.
  - exact Hp.
Defined.

Lemma scale_to_fit_witness : scaleFactor demoStart == 1.
Proof.
  destruct (scale_to_fit demoHost demoOptions demoImage demoStart)
    as (Hfit & _).
  - reflexivity.
  - reflexivity.
  - reflexivity.
  - reflexivity.
  - exact demo_init.
  - apply Hfit; vm_compute; discriminate.
Defined.


Lemma countdown_whole_seconds_witness :
  timerTextAt 2048 100 = timerTextAt 2048 1000.
Proof.
  apply (proj2 (countdown_whole_seconds 2048)). vm_compute. reflexivity.
Defined.


Lemma image_choice_witness :
  exists key,
    Catalog.themeImageModuleKey (1 # 2) demoModules
      (Catalog.theme [("theme", "cats")]%string) = Some key.
Proof.
  destruct (image_choice [("theme", "cats")]%string (1 # 2) demoModules)
    as (_ & _ & Hsome & _).
  - discriminate.
  - reflexivity.
  - destruct Hsome as (key & img & Hkey & _).
    + vm_compute. discriminate.
    + exists key. exact Hkey.
Defined.

Lemma minutes_round_trip_witness :
  Page.totalDuration (Page.puzzleOptions [("minutes", "5")]%string)
  = Page.Num (inject_Z 5 * 60000).
Proof.
  destruct (minutes_round_trip [("minutes", "5")]%string 5) as (_ & Htotal & _).
  - vm_compute. discriminate.
  - reflexivity.
  - exact Htotal.
Defined.

Lemma every_order_possible_witness :
  exists h' s',
    init h' demoOptions demoImage = Some s'
    /\ solvingOrder s' = Some <$> [1; 0]%nat.
Proof.
  destruct (every_order_possible demoHost demoOptions demoImage demoStart
              [1; 0]%nat) as (h' & s' & _ & _ & _ & Hinit & _ & Horder).
  - exact demo_init.
  - vm_compute. apply perm_swap.
  - exists h', s'. split; assumption.
Defined.
